(** * PSON encoder (src/PSON/Encoder.ts): a shallow embedding and its properties

    The encoder turns a JavaScript value into a tagged byte sequence and
    keeps a dictionary of object keys.  The embedding follows the source
    statement by statement:

    - a JavaScript Number is an IEEE-754 double, here a [spec_float] of the
      Standard Library, compared by value as [===] does;
    - the encoder object (dictionary, next index, mode) and the ByteBuffer it
      writes to are mutable objects: they are threaded as explicit state, and a
      thrown exception keeps the state reached when it was thrown;
    - the dictionary is a plain object used as a map: its own properties are
      a finite map, and what it inherits from [Object.prototype] shows where
      the code touches it, in the setter of [__proto__] and in the method
      [hasOwnProperty];
    - the recursion of [_encodeValue] is counted in call-stack frames, the
      engine's RangeError when they run out included. *)

From Stdlib Require Import ZArith Lia List Bool.
From Stdlib.Floats Require Import SpecFloat.
From stdpp Require Import gmap strings list.

Open Scope Z_scope.

(** ** Tag constants (module ./T) *)

(** Modelled from the spec: the tag constants that Encoder.ts imports from
    "./T".  That file is not among the sources; the spec names the tags and
    says that each is a single byte and that [MAX] bounds the sub-range of
    small integers, and gives no numeric value.  The encoder is therefore
    parametrised by the table. *)
Module T.
Record t := Make {
  MAX : Z; NULL : Z; TRUE : Z; FALSE : Z;
  EOBJECT : Z; EARRAY : Z; ESTRING : Z;
  OBJECT : Z; ARRAY : Z; INTEGER : Z; LONG : Z;
  FLOAT : Z; DOUBLE : Z;
  STRING : Z; STRING_ADD : Z; STRING_GET : Z; BINARY : Z
}.

(** One table that meets the spec's description (small integers below,
    symbolic markers above), used to run the encoder on examples. *)
Definition sample : t :=
  {| MAX := 0xEF; NULL := 0xF0; TRUE := 0xF1; FALSE := 0xF2;
     EOBJECT := 0xF3; EARRAY := 0xF4; ESTRING := 0xF5;
     OBJECT := 0xF6; ARRAY := 0xF7; INTEGER := 0xF8; LONG := 0xF9;
     FLOAT := 0xFA; DOUBLE := 0xFB;
     STRING := 0xFC; STRING_ADD := 0xFD; STRING_GET := 0xFE; BINARY := 0xFF |}.
End T.

(** ** JavaScript numbers *)

Module Num.
(** A Number: zero, infinity, NaN, or [(-1)^s * m * 2^e]. *)
Abbreviation number := spec_float.

(** The double nearest to [m * 2^e], in canonical form. *)
Definition double (s : bool) (m : positive) (e : Z) : number :=
  binary_round 53 1024 s m e.

Definition ofZ (z : Z) : number :=
  match z with
  | Z0 => S754_zero false
  | Zpos p => double false p 0
  | Zneg p => double true p 0
  end.

(** [m1 * 2^e1 = m2 * 2^e2], both brought to the smaller exponent. *)
Definition sameMagnitude (m1 : positive) (e1 : Z) (m2 : positive) (e2 : Z) : bool :=
  let e := Z.min e1 e2 in
  Z.pos m1 * 2 ^ (e1 - e) =? Z.pos m2 * 2 ^ (e2 - e).

(** [a === b] on Numbers: NaN differs from everything, the two zeros are
    equal, everything else compares by value. *)
Definition strictEquals (a b : number) : bool :=
  match a, b with
  | S754_zero _, S754_zero _ => true
  | S754_infinity s1, S754_infinity s2 => Bool.eqb s1 s2
  | S754_finite s1 m1 e1, S754_finite s2 m2 e2 =>
      Bool.eqb s1 s2 && sameMagnitude m1 e1 m2 e2
  | _, _ => false
  end.

(** The integer part of the magnitude [m * 2^e]. *)
Definition magnitudeFloor (m : positive) (e : Z) : Z :=
  if 0 <=? e then Z.pos m * 2 ^ e else Z.pos m / 2 ^ (- e).

(** The value rounded toward zero, as an integer (0 for NaN and the
    infinities, as in the integer conversions of the language). *)
Definition truncZ (v : number) : Z :=
  match v with
  | S754_finite s m e => if s then - magnitudeFloor m e else magnitudeFloor m e
  | _ => 0
  end.

(** The value is a whole number. *)
Definition isInteger (v : number) : bool :=
  match v with
  | S754_zero _ => true
  | S754_finite _ m e => (0 <=? e) || (Z.pos m mod 2 ^ (- e) =? 0)
  | _ => false
  end.

(** ToString prints a finite Number in positional notation when the
    shortest decimal form that reads back as the Number has its point within
    21 digits and at most six zeros behind it, and in exponent notation
    otherwise.  For a double that is: when its magnitude is below [10^21]
    (itself a double) and not below the double nearest to [10^-6], which is
    4722366482869645 * 2^-72 and prints as "0.000001". *)
Definition below1e21 (m : positive) (e : Z) : bool :=
  if 0 <=? e then Z.pos m * 2 ^ e <? 10 ^ 21
  else Z.pos m <? 10 ^ 21 * 2 ^ (- e).

Definition atLeast1em6 (m : positive) (e : Z) : bool :=
  if -72 <=? e then 4722366482869645 <=? Z.pos m * 2 ^ (e + 72)
  else 4722366482869645 * 2 ^ (- 72 - e) <=? Z.pos m.

Definition positional (m : positive) (e : Z) : bool :=
  atLeast1em6 m e && below1e21 m e.

(** The digits that ToString prints before the decimal point of a Number
    in positional notation, read back as a Number: the Number itself when
    it is whole, and its integer part otherwise (with the sign in front,
    so that "-0.5" gives -0). *)
Definition integerPart (s : bool) (m : positive) (e : Z) : number :=
  if 0 <=? e then S754_finite s m e
  else match Z.pos m / 2 ^ (- e) with
       | Zpos q => S754_finite s q 0
       | _ => S754_zero s
       end.

(** A decimal digit from 1 to 9. *)
Inductive digit : Set := D1 | D2 | D3 | D4 | D5 | D6 | D7 | D8 | D9.

Definition digitValue (d : digit) : positive :=
  match d with
  | D1 => 1 | D2 => 2 | D3 => 3 | D4 => 4 | D5 => 5
  | D6 => 6 | D7 => 7 | D8 => 8 | D9 => 9
  end%positive.

(** [n |= 0]: ToInt32. *)
Definition wrap32 (z : Z) : Z := (z + 2 ^ 31) mod 2 ^ 32 - 2 ^ 31.
Definition toInt32 (v : number) : Z := wrap32 (truncZ v).

(** [n >>>= 0]: ToUint32, on an integer. *)
Definition toUint32 (z : Z) : Z := z mod 2 ^ 32.

(** Conversion to single precision, as writeFloat32 stores it and
    readFloat32 returns it. *)
Definition fround (v : number) : number :=
  match v with
  | S754_finite s m e => binary_round 24 128 s m e
  | _ => v
  end.

(** The bit pattern of a Number in a binary interchange format with
    [prec] significant bits, exponent bound [emax] and [width] bits in all.
    NaN is the quiet NaN with an empty payload. *)
Definition bits (prec emax width : Z) (v : number) : Z :=
  let mw := prec - 1 in
  let signBit (s : bool) := if s then 2 ^ (width - 1) else 0 in
  let expAllOnes := (2 ^ (width - 1 - mw) - 1) * 2 ^ mw in
  match v with
  | S754_zero s => signBit s
  | S754_infinity s => signBit s + expAllOnes
  | S754_nan => expAllOnes + 2 ^ (mw - 1)
  | S754_finite s m e =>
      match binary_round prec emax s m e with
      | S754_finite s' m' e' =>
          signBit s' +
          (if 2 ^ mw <=? Z.pos m'
           then (e' + emax + prec - 2) * 2 ^ mw + (Z.pos m' - 2 ^ mw)
           else Z.pos m')
      | S754_zero s' => signBit s'
      | S754_infinity s' => signBit s' + expAllOnes
      | S754_nan => expAllOnes + 2 ^ (mw - 1)
      end
  end.

Definition bits32 : number -> Z := bits 24 128 32.
Definition bits64 : number -> Z := bits 53 1024 64.

(** The [n] low bytes of [z], least significant first. *)
Fixpoint bytesLE (n : nat) (z : Z) : list Z :=
  match n with
  | O => []
  | S n' => z mod 256 :: bytesLE n' (z / 256)
  end.
End Num.
Export Num.

(** ** The byte sink (bytebuffer) *)

(** What a call can throw. *)
Inductive error : Set :=
| RangeError_IllegalOffset   (* a ByteBuffer write found its offset out of range *)
| RangeError_CallStack       (* maximum call stack size exceeded *)
| TypeError_IllegalBuffer    (* ByteBuffer.wrap was given something it cannot wrap *)
| TypeError_NotAFunction.    (* what is called is not a function *)

Inductive completion (A : Type) : Type :=
| Normal (a : A)
| Throw (e : error).
Arguments Normal {A} a.
Arguments Throw {A} e.

Module ByteBuffer.
(** A ByteBuffer as the encoder uses it: the bytes before the offset, the
    bytes from the offset to the limit, the byte-order flag, and whether
    the offset lies outside the backing store.  Every relative write starts
    by checking the offset and throws a RangeError before touching the
    buffer when the check fails, so a buffer that rejects one write rejects
    the next. Growing the store on demand is the buffer's own business and
    invisible here. *)
Record t := Make {
  behind : list Z;
  ahead : list Z;
  littleEndian : bool;
  illegalOffset : bool
}.

(** [new ByteBuffer()]: capacity 16, big endian, offset 0, limit at capacity. *)
Definition create : t :=
  {| behind := []; ahead := repeat 0 16; littleEndian := false; illegalOffset := false |}.

(** [buf.LE()] *)
Definition LE (b : t) : t :=
  {| behind := behind b; ahead := ahead b; littleEndian := true;
     illegalOffset := illegalOffset b |}.

(** [buf.littleEndian = le] *)
Definition setLittleEndian (le : bool) (b : t) : t :=
  {| behind := behind b; ahead := ahead b; littleEndian := le;
     illegalOffset := illegalOffset b |}.

(** [buf.flip()]: the limit moves to the offset and the offset to 0. *)
Definition flip (b : t) : t :=
  {| behind := []; ahead := behind b; littleEndian := littleEndian b;
     illegalOffset := false |}.

(** The effect of an accepted relative write of [bs]. *)
Definition put (bs : list Z) (b : t) : t :=
  {| behind := behind b ++ bs; ahead := drop (length bs) (ahead b);
     littleEndian := littleEndian b; illegalOffset := illegalOffset b |}.

(** The loop of writeVarint32 and writeVarint64: seven bits a byte, least
    significant group first, the high bit set on all bytes but the last.
    [n] bounds the number of continuation bytes. *)
Fixpoint varintLoop (n : nat) (value : Z) : list Z :=
  match n with
  | S n' =>
      if 0x80 <=? value
      then Z.lor (Z.land value 0x7f) 0x80 :: varintLoop n' (Z.shiftr value 7)
      else [value]
  | O => [value]
  end.

(** 32 bits take at most four continuation bytes, 64 bits nine. *)
Definition varint32 (value : Z) : list Z := varintLoop 4 (toUint32 value).
Definition varint64 (value : Z) : list Z := varintLoop 9 (value mod 2 ^ 64).

(** [ByteBuffer.zigZagEncode32]: [(((n |= 0) << 1) ^ (n >> 31)) >>> 0]. *)
Definition zigZagEncode32 (v : number) : Z :=
  let n := toInt32 v in
  toUint32 (Z.lxor (wrap32 (Z.shiftl n 1)) (Z.shiftr n 31)).

(** [ByteBuffer.zigZagDecode32]: [((n >>> 1) ^ -(n & 1)) | 0]. *)
Definition zigZagDecode32 (n : Z) : Z :=
  wrap32 (Z.lxor (Z.shiftr (toUint32 n) 1) (- Z.land n 1)).

(** [ByteBuffer.zigZagEncode64] on a signed Long. *)
Definition zigZagEncode64 (l : Z) : Z :=
  let n := (l + 2 ^ 63) mod 2 ^ 64 - 2 ^ 63 in
  Z.lxor (Z.shiftl n 1) (Z.shiftr n 63) mod 2 ^ 64.

(** The loop of readVarint32 over the bytes at the offset: groups beyond the
    fifth are skipped, and the sum is cut to 32 bits. *)
Fixpoint readVarintLoop (c : nat) (value : Z) (bs : list Z) : option Z :=
  match bs with
  | [] => None
  | b :: rest =>
      let value' :=
        if (c <? 5)%nat
        then Z.lor value (wrap32 (Z.shiftl (Z.land b 0x7f) (7 * Z.of_nat c)))
        else value in
      if Z.land b 0x80 =? 0 then Some (wrap32 value')
      else readVarintLoop (S c) value' rest
  end.

Definition readVarint32 (bs : list Z) : option Z := readVarintLoop 0 0 bs.

Definition readVarint32ZigZag (bs : list Z) : option Z :=
  zigZagDecode32 <$> readVarint32 bs.

(** The bytes of a float in the buffer's byte order. *)
Definition ordered (le : bool) (bs : list Z) : list Z := if le then bs else rev bs.
Definition float32 (le : bool) (v : number) : list Z := ordered le (bytesLE 4 (bits32 v)).
Definition float64 (le : bool) (v : number) : list Z := ordered le (bytesLE 8 (bits64 v)).

(** A string is kept as its UTF-8 bytes. *)
Definition utf8 (s : string) : list Z :=
  (fun c => Z.of_nat (Ascii.nat_of_ascii c)) <$> String.list_ascii_of_string s.

(** writeVString: the byte length as a varint, then the bytes. *)
Definition vstring (s : string) : list Z :=
  varint32 (Z.of_nat (length (utf8 s))) ++ utf8 s.
End ByteBuffer.

(** ** Values *)

(** The values the encoder distinguishes.  A string stands for its UTF-8
    bytes; a function for the text [toString] gives; a Long for its signed
    64-bit value; [VBinary] for what [ByteBuffer.wrap] accepts (an
    ArrayBuffer or a typed array over it) with the bytes it holds; [VSymbol]
    for a symbol and [VBigInt] for a bigint with its value, the two kinds
    whose [typeof] the switch has no case for.

    An object is its own enumerable properties in the order of
    [Object.keys], keys pairwise distinct, with data properties only.  The
    code reads one property by name, [val._PSON_EXCL_], and such a read also
    finds a property that is not enumerable or that is inherited:
    [VObjectHidden hidden properties] is the object whose read of that name
    gives [hidden] when the name is not among its own enumerable
    properties.  [VObject properties] is the plain object, where the read
    gives [undefined] then. *)
#[local] Set Warnings "-register-all".
Inductive value : Type :=
| VNull
| VUndefined
| VBool (b : bool)
| VNumber (n : number)
| VString (s : string)
| VFunction (source : string)
| VLong (l : Z)
| VBinary (bytes : list Z)
| VArray (elements : list value)
| VObjectHidden (hidden : value) (properties : list (string * value))
| VSymbol
| VBigInt (n : Z).

Abbreviation VObject properties := (VObjectHidden VUndefined properties).

Definition isUndefined (v : value) : bool :=
  match v with VUndefined => true | _ => false end.

(** [!!v] *)
Definition truthy (v : value) : bool :=
  match v with
  | VUndefined | VNull => false
  | VBool b => b
  | VNumber (S754_zero _) | VNumber S754_nan => false
  | VString s => negb (String.eqb s "")
  | VBigInt n => negb (n =? 0)
  | _ => true
  end.

(** [val[key]] on the own enumerable properties of a plain object;
    [undefined] when there is none. *)
Fixpoint getProperty (key : string) (properties : list (string * value)) : value :=
  match properties with
  | [] => VUndefined
  | (k, v) :: rest => if String.eqb k key then v else getProperty key rest
  end.

(** [val._PSON_EXCL_]: the own enumerable property of that name when there
    is one, and otherwise what the object has out of sight. *)
Fixpoint readSentinel (hidden : value) (properties : list (string * value)) : value :=
  match properties with
  | [] => hidden
  | (k, v) :: rest =>
      if String.eqb k "_PSON_EXCL_" then v else readSentinel hidden rest
  end.

(** The own enumerable properties of the ByteBuffer that [ByteBuffer.wrap]
    returns for the bytes [bs], in the order its constructor sets them. *)
Definition wrapperProperties (bs : list Z) : list (string * value) :=
  [ ("buffer"%string, VBinary bs);
    ("view"%string, match bs with [] => VNull | _ => VBinary bs end);
    ("offset"%string, VNumber (ofZ 0));
    ("markedOffset"%string, VNumber (ofZ (-1)));
    ("limit"%string, VNumber (ofZ (Z.of_nat (length bs))));
    ("littleEndian"%string, VBool false);
    ("noAssert"%string, VBool false) ].

(** ** The encoder object and the monad of its methods *)

(** The fields of an [Encoder]: [dict], the object used as a map from
    strings to indices, here the finite map of its own properties; the next
    index; and the mode.  The object is created as [{}] and the code only
    assigns to it, so it inherits from [Object.prototype] throughout. *)
Record Encoder := mkEncoder {
  dict : gmap string nat;
  next : nat;
  progressive : bool
}.

(** A method body: it reads and updates the encoder and the target buffer,
    and completes normally or throws.  Both objects keep what was done to
    them before a throw. *)
Definition Js (A : Type) : Type :=
  Encoder -> ByteBuffer.t -> completion A * Encoder * ByteBuffer.t.

#[global] Instance Js_ret : MRet Js := fun A a this buf => (Normal a, this, buf).

#[global] Instance Js_bind : MBind Js := fun A B f m this buf =>
  match m this buf with
  | (Normal a, this', buf') => f a this' buf'
  | (Throw e, this', buf') => (Throw e, this', buf')
  end.

Definition throw {A} (e : error) : Js A := fun this buf => (Throw e, this, buf).

(** [try { body } catch (e) { handler }] *)
Definition tryCatch {A} (body : Js A) (handler : error -> Js A) : Js A :=
  fun this buf =>
    match body this buf with
    | (Normal a, this', buf') => (Normal a, this', buf')
    | (Throw e, this', buf') => handler e this' buf'
    end.

(** [xs.forEach(f)], as the [for] loops over arrays run. *)
Fixpoint forEach {A} (f : A -> Js unit) (xs : list A) : Js unit :=
  match xs with
  | [] => mret tt
  | x :: rest => f x ;; forEach f rest
  end.

Module Sink.
Import ByteBuffer.

(** A relative write of the bytes [bs]. *)
Definition write (bs : list Z) : Js unit := fun this buf =>
  if illegalOffset buf then (Throw RangeError_IllegalOffset, this, buf)
  else (Normal tt, this, put bs buf).

(** A write whose bytes depend on the buffer's byte order. *)
Definition writeOrdered (bs : bool -> list Z) : Js unit := fun this buf =>
  write (bs (littleEndian buf)) this buf.

(** The value is reduced to 32 bits and its low byte stored. *)
Definition writeUint8 (value : Z) : Js unit := write [value mod 256].
Definition writeVarint32 (value : Z) : Js unit := write (varint32 value).
Definition writeVarint32ZigZag (v : number) : Js unit := writeVarint32 (zigZagEncode32 v).
Definition writeVarint64ZigZag (l : Z) : Js unit := write (varint64 (zigZagEncode64 l)).
Definition writeFloat32 (v : number) : Js unit := writeOrdered (fun le => float32 le v).
Definition writeFloat64 (v : number) : Js unit := writeOrdered (fun le => float64 le v).
Definition writeVString (s : string) : Js unit := write (vstring s).
Definition append (bs : list Z) : Js unit := write bs.
End Sink.
Export Sink.

(** ** The encoder *)

Definition getThis : Js Encoder := fun this buf => (Normal this, this, buf).

(** [d[key] = index] on the dictionary object.  An assignment to the name
    [__proto__] reaches the setter that [Object.prototype] has for it, which
    ignores a number: nothing is stored.  Every other name becomes, or
    stays, an own property. *)
Definition assign (key : string) (index : nat) (d : gmap string nat) : gmap string nat :=
  if String.eqb key "__proto__" then d else <[key := index]> d.

(** The encoder after [this.dict[key] = this.next++]. *)
Definition withKey (key : string) (this : Encoder) : Encoder :=
  {| dict := assign key (next this) (dict this); next := S (next this);
     progressive := progressive this |}.

Definition addToDictionary (key : string) : Js unit := fun this buf =>
  (Normal tt, withKey key this, buf).

(** [this.dict.hasOwnProperty(key)], and [this.dict[key]] where it holds.
    The method is looked up on the dictionary object itself: once the
    string "hasOwnProperty" is one of its keys, what the call finds there is
    the index, a number, and the call throws a TypeError. *)
Definition hasOwnProperty (key : string) : Js (option nat) := fun this buf =>
  match dict this !! "hasOwnProperty"%string with
  | Some _ => (Throw TypeError_NotAFunction, this, buf)
  | None => (Normal (dict this !! key), this, buf)
  end.

(** [new Encoder(dict, progressive, options)]: the loop assigns each string
    of the list its position. *)
Definition newEncoder (seeds : list string) (progressive : bool) : Encoder :=
  fold_left (fun this seed => withKey seed this) seeds
    {| dict := ∅; next := 0%nat; progressive := progressive |}.

Section Encoder.
(** The tag table of ./T. *)
Variable tags : T.t.

(** [parseInt(val)] on a Number prints it first.  In exponent notation
    ("1.2e+21", "5e-7") the digits stop at the first one; which digit the
    shortest decimal form of each Number starts with is left open. *)
Variable exponentDigit : number -> digit.

Definition parseInt (val : number) : number :=
  match val with
  | S754_nan | S754_infinity _ => S754_nan
  | S754_zero _ => S754_zero false
  | S754_finite s m e =>
      if positional m e then integerPart s m e
      else S754_finite s (digitValue (exponentDigit val)) 0
  end.

(** The case 'string' (and 'function' after [toString]). *)
Definition encodeString (val : string) : Js unit :=
  if (String.length val =? 0)%nat then writeUint8 (T.ESTRING tags)
  else
    found ← hasOwnProperty val;
    match found with
    | Some index =>
        writeUint8 (T.STRING_GET tags);;
        writeVarint32 (Z.of_nat index)
    | None =>
        writeUint8 (T.STRING tags);;
        writeVString val
    end.

(** The case 'number'.  The module-level scratch buffer is written and
    read back at once, which converts to single precision. *)
Definition encodeNumber (val : number) : Js unit :=
  let intVal := parseInt val in
  if strictEquals val intVal then
    let zzval := ByteBuffer.zigZagEncode32 val in
    if zzval <=? T.MAX tags then writeUint8 zzval
    else
      writeUint8 (T.INTEGER tags);;
      writeVarint32ZigZag val
  else
    if strictEquals val (fround val) then
      writeUint8 (T.FLOAT tags);;
      writeFloat32 val
    else
      writeUint8 (T.DOUBLE tags);;
      writeFloat64 val.

(** One key of an object: looked up, added, or written in full. *)
Definition encodeKey (excluded : bool) (key : string) : Js unit :=
  found ← hasOwnProperty key;
  match found with
  | Some index =>
      writeUint8 (T.STRING_GET tags);;
      writeVarint32 (Z.of_nat index)
  | None =>
      this ← getThis;
      (if progressive this && negb excluded then
         addToDictionary key;;
         writeUint8 (T.STRING_ADD tags)
       else
         writeUint8 (T.STRING tags));;
      writeVString key
  end.

(** The first loop over the keys: [n] counts the defined values. *)
Definition countDefined (properties : list (string * value)) : nat :=
  fold_left (fun n kv => if isUndefined kv.2 then n else S n) properties 0%nat.

(** The object branch, entered from the [catch] clause; [recur] is the
    recursive call with one frame less. *)
Definition encodeObject (recur : value -> bool -> Js unit)
    (hidden : value) (properties : list (string * value)) (excluded : bool) : Js unit :=
  let n := countDefined properties in
  if (n =? 0)%nat then writeUint8 (T.EOBJECT tags)
  else
    writeUint8 (T.OBJECT tags);;
    writeVarint32 (Z.of_nat n);;
    let excluded :=
      if negb excluded then truthy (readSentinel hidden properties)
      else excluded in
    forEach
      (fun kv =>
         if isUndefined kv.2 then mret tt
         else encodeKey excluded kv.1;; recur kv.2 false)
      properties.

(** [_encodeValue(val, buf, excluded)] with [frames] stack frames left. *)
Fixpoint _encodeValue (frames : nat) (val : value) (excluded : bool)
    {struct frames} : Js unit :=
  match frames with
  | O => throw RangeError_CallStack
  | S frames' =>
      match val with
      | VNull => writeUint8 (T.NULL tags)
      | VFunction source => encodeString source
      | VString s => encodeString s
      | VNumber n => encodeNumber n
      | VBool b => writeUint8 (if b then T.TRUE tags else T.FALSE tags)
      | VArray elements =>
          if (length elements =? 0)%nat then writeUint8 (T.EARRAY tags)
          else
            writeUint8 (T.ARRAY tags);;
            writeVarint32 (Z.of_nat (length elements));;
            forEach (fun element => _encodeValue frames' element false) elements
      | VLong l =>
          writeUint8 (T.LONG tags);;
          writeVarint64ZigZag l
      | VBinary bs =>
          (* ByteBuffer.wrap(val) returns and val is the wrapper from then
             on; when a write of the try block throws, the handler takes
             that wrapper for the object *)
          tryCatch
            (writeUint8 (T.BINARY tags);;
             writeVarint32 (Z.of_nat (length bs));;
             append bs)
            (fun _ =>
               encodeObject (_encodeValue frames') VUndefined (wrapperProperties bs) excluded)
      | VObjectHidden hidden properties =>
          (* ByteBuffer.wrap(val) throws *)
          tryCatch
            (throw TypeError_IllegalBuffer)
            (fun _ => encodeObject (_encodeValue frames') hidden properties excluded)
      | VUndefined => writeUint8 (T.NULL tags)
      | VSymbol | VBigInt _ => mret tt
      end
  end.

(** [encode(json, buf)]: the outcome, the encoder afterwards, and the
    buffer (the one given, or the new one) as the call leaves it. *)
Definition encode (frames : nat) (json : value) (buf : option ByteBuffer.t)
    (this : Encoder) : completion unit * Encoder * ByteBuffer.t :=
  let doFlip := match buf with None => true | Some _ => false end in
  let buf := match buf with None => ByteBuffer.create | Some b => b end in
  let le := ByteBuffer.littleEndian buf in
  match _encodeValue frames json false this (ByteBuffer.LE buf) with
  | (Normal _, this', buf') =>
      let buf' := ByteBuffer.setLittleEndian le buf' in
      (Normal tt, this', if doFlip then ByteBuffer.flip buf' else buf')
  | (Throw e, this', buf') =>
      (Throw e, this', ByteBuffer.setLittleEndian le buf')
  end.
End Encoder.

(** ** Notions used to state the properties *)

(** The properties of an object whose value is not [undefined], in order. *)
Definition present (properties : list (string * value)) : list (string * value) :=
  List.filter (fun kv => negb (isUndefined kv.2)) properties.

(** [|v| < 10^21], the Numbers that ToString prints without exponent
    (unless they are tiny). *)
Definition magnitudeBelow1e21 (v : number) : bool :=
  match v with
  | S754_zero _ => true
  | S754_finite _ m e => below1e21 m e
  | _ => false
  end.

(** The dictionary is the numbering of [log]: [next] is the length of
    [log], and the keys of the dictionary are the entries of [log] other
    than "__proto__", each with its position in [log] (counted from 0) as
    index.  So no such entry is in [log] twice. *)
Definition Indexed (log : list string) (this : Encoder) : Prop :=
  next this = length log /\
  forall key i,
    dict this !! key = Some i <-> key <> "__proto__"%string /\ log !! i = Some key.

(** The dictionary answers lookups: "hasOwnProperty" is not one of its
    keys. *)
Definition usable (this : Encoder) : Prop :=
  dict this !! "hasOwnProperty"%string = None.

(** No object in the value has a property named "hasOwnProperty". *)
Fixpoint noHasOwnPropertyKey (v : value) : bool :=
  match v with
  | VArray elements => forallb noHasOwnPropertyKey elements
  | VObjectHidden _ properties =>
      forallb
        (fun kv => negb (String.eqb kv.1 "hasOwnProperty") && noHasOwnPropertyKey kv.2)
        properties
  | _ => true
  end.

(** A digit function for running the encoder on examples: it is consulted
    only for Numbers printed in exponent notation, and is right for the
    ones used below, whose printed form starts with 1. *)
Definition leadingOne : number -> digit := fun _ => D1.

(** A computation that only appends to the log: from an encoder whose
    dictionary numbers [log] it leads, whether it returns or throws, to one
    whose dictionary numbers [log] followed by some further keys. *)
Definition Grows {A} (m : Js A) : Prop :=
  forall log this buf,
    Indexed log this -> exists added, Indexed (log ++ added) (m this buf).1.2.

(** A session: calls of [encode] on one encoder, one after the other, each
    with its stack, its value and its optional target. *)
Definition session (tags : T.t) (exponentDigit : number -> digit)
    (calls : list (nat * value * option ByteBuffer.t)) (this : Encoder) : Encoder :=
  fold_left
    (fun this call => (encode tags exponentDigit call.1.1 call.1.2 call.2 this).1.2)
    calls this.

(** The nesting depth of arrays and objects in a value. *)
Fixpoint depth (v : value) : nat :=
  match v with
  | VArray elements =>
      S (fold_right (fun element d => Nat.max (depth element) d) 0%nat elements)
  | VObjectHidden _ properties =>
      S (fold_right (fun kv d => Nat.max (depth kv.2) d) 0%nat properties)
  | _ => 0%nat
  end.

(** A computation that, on a buffer that accepts writes and with a
    dictionary that answers lookups, returns normally, has only written at
    the offset, and leaves the dictionary answering. *)
Definition Accepted (m : Js unit) : Prop :=
  forall this buf, ByteBuffer.illegalOffset buf = false -> usable this ->
    exists this' bs,
      m this buf = (Normal tt, this', ByteBuffer.put bs buf) /\ usable this'.

(** ** Notions used to state the further properties *)

(** A property of the encoder that adding a key the dictionary lacks, in
    progressive mode, does not break. *)
Definition KeptByAdding (I : Encoder -> Prop) : Prop :=
  forall this key,
    I this -> progressive this = true -> dict this !! key = None -> I (withKey key this).

(** A computation that keeps such a property of the encoder, whether it
    returns or throws. *)
Definition Keeps (I : Encoder -> Prop) {A} (m : Js A) : Prop :=
  forall this buf, I this -> I (m this buf).1.2.

(** Every index is below [next], and no two keys share one. *)
Definition WellNumbered (this : Encoder) : Prop :=
  (forall key i, dict this !! key = Some i -> (i < next this)%nat) /\
  (forall k1 k2 i, dict this !! k1 = Some i -> dict this !! k2 = Some i -> k1 = k2).

(** [i] is the last position of [key] in [seeds]. *)
Definition LastAt (seeds : list string) (key : string) (i : nat) : Prop :=
  seeds !! i = Some key /\ forall j, (i < j)%nat -> seeds !! j <> Some key.

(** Somewhere in the value, below arrays only, there is an object with a
    defined property: a key that [_encodeValue] gets to write. *)
Fixpoint hasKeys (v : value) : bool :=
  match v with
  | VArray elements => existsb hasKeys elements
  | VObjectHidden _ properties => existsb (fun kv => negb (isUndefined kv.2)) properties
  | _ => false
  end.

(** A computation whose outcome, whose effect on the encoder and whose
    bytes are the same for every buffer that accepts writes, given its byte
    order, and which puts those bytes at the offset. *)
Definition Appends {A} (m : Js A) : Prop :=
  forall this le, exists outcome this' bs,
    forall buf,
      ByteBuffer.illegalOffset buf = false -> ByteBuffer.littleEndian buf = le ->
      m this buf = (outcome, this', ByteBuffer.put bs buf).

(** What a buffer stores at one position. *)
Definition isByte (z : Z) : Prop := 0 <= z < 256.

(** The binary data in the value are bytes. *)
Fixpoint binaryIsBytes (v : value) : bool :=
  match v with
  | VBinary bs => forallb (fun b => (0 <=? b) && (b <? 256)) bs
  | VArray elements => forallb binaryIsBytes elements
  | VObjectHidden _ properties => forallb (fun kv => binaryIsBytes kv.2) properties
  | _ => true
  end.

(** A computation that leaves the buffer as it was but for bytes put at
    the offset. *)
Definition PutsBytes {A} (m : Js A) : Prop :=
  forall this buf, exists bs,
    (m this buf).2 = ByteBuffer.put bs buf /\ Forall isByte bs.

(** * Properties *)

(** ** Sequencing *)

Lemma bind_unfold {A B} (m : Js A) (f : A -> Js B) this buf :
  (m ≫= f) this buf =
  match m this buf with
  | (Normal a, this', buf') => f a this' buf'
  | (Throw e, this', buf') => (Throw e, this', buf')
  end.
Proof. reflexivity. Qed.

Lemma bind_normal {A B} (m : Js A) (f : A -> Js B) this buf a this' buf' :
  m this buf = (Normal a, this', buf') -> (m ≫= f) this buf = f a this' buf'.
Proof. intros H. rewrite bind_unfold, H. reflexivity. Qed.

Lemma bind_assoc {A B C} (m : Js A) (f : A -> Js B) (g : B -> Js C) this buf :
  ((m ≫= f) ≫= g) this buf = (m ≫= (fun a => f a ≫= g)) this buf.
Proof.
  rewrite !bind_unfold.
  destruct (m this buf) as [[[a|e] this'] buf']; reflexivity.
Qed.

(** Two computations that agree on every state can replace one another
    after any prefix. *)
Lemma bind_congr {A B} (m : Js A) (f g : A -> Js B) this buf :
  (forall a this' buf', m this buf = (Normal a, this', buf') -> f a this' buf' = g a this' buf') ->
  (m ≫= f) this buf = (m ≫= g) this buf.
Proof.
  intros H. rewrite !bind_unfold.
  destruct (m this buf) as [[[a|e] this'] buf'] eqn:E; [apply H|]; reflexivity.
Qed.

Lemma put_put bs cs buf :
  ByteBuffer.put cs (ByteBuffer.put bs buf) = ByteBuffer.put (bs ++ cs) buf.
Proof.
  unfold ByteBuffer.put; simpl. f_equal.
  - symmetry. apply app_assoc.
  - rewrite drop_drop, length_app. reflexivity.
Qed.

(** Consecutive writes are one write of the concatenation. *)
Lemma write_write bs cs this buf :
  (write bs;; write cs) this buf = write (bs ++ cs) this buf.
Proof.
  rewrite bind_unfold. unfold write.
  destruct (ByteBuffer.illegalOffset buf) eqn:E; [reflexivity|].
  simpl. rewrite E, put_put. reflexivity.
Qed.

Lemma write_accepted bs this buf :
  ByteBuffer.illegalOffset buf = false ->
  write bs this buf = (Normal tt, this, ByteBuffer.put bs buf).
Proof. intros H. unfold write. rewrite H. reflexivity. Qed.

Lemma write_rejected bs this buf :
  ByteBuffer.illegalOffset buf = true ->
  write bs this buf = (Throw RangeError_IllegalOffset, this, buf).
Proof. intros H. unfold write. rewrite H. reflexivity. Qed.

Lemma forEach_app {A} (f : A -> Js unit) xs ys this buf :
  forEach f (xs ++ ys) this buf = (forEach f xs;; forEach f ys) this buf.
Proof.
  revert this buf. induction xs as [|x xs IH]; intros this buf; simpl.
  - reflexivity.
  - rewrite bind_assoc. apply bind_congr. intros [] this' buf' _. apply IH.
Qed.

Lemma forEach_cons {A} (f : A -> Js unit) x xs this buf :
  forEach f (x :: xs) this buf = (f x;; forEach f xs) this buf.
Proof. reflexivity. Qed.

(** ** Integers of 32 bits, zigzag and varints *)

Ltac euclid := unfold wrap32, toUint32 in *; Z.div_mod_to_equations; lia.

Lemma wrap32_small z : - 2 ^ 31 <= z < 2 ^ 31 -> wrap32 z = z.
Proof. intros H. euclid. Qed.

Lemma toUint32_wrap32 z : toUint32 (wrap32 z) = toUint32 z.
Proof. euclid. Qed.

Lemma wrap32_add_wrap32 a w : wrap32 (a + wrap32 w) = wrap32 (a + w).
Proof. euclid. Qed.

Lemma land_disjoint a q k :
  0 <= k -> 0 <= a < 2 ^ k -> Z.land a (q * 2 ^ k) = 0.
Proof.
  intros Hk Ha. apply Z.bits_inj'; intros i Hi; rewrite Z.land_spec, Z.bits_0.
  destruct (Z.lt_ge_cases i k).
  - rewrite Z.mul_pow2_bits_low by lia. apply andb_false_r.
  - destruct (Z.eq_dec a 0) as [->|]; [rewrite Z.bits_0; reflexivity|].
    rewrite (Z.bits_above_log2 a i); [reflexivity|lia|].
    apply Z.lt_le_trans with k; [apply Z.log2_lt_pow2; lia|lia].
Qed.

(** Numbers with no bit in common add up to their bitwise or. *)
Lemma lor_disjoint a q k :
  0 <= k -> 0 <= a < 2 ^ k -> Z.lor a (q * 2 ^ k) = a + q * 2 ^ k.
Proof.
  intros Hk Ha. pose proof (land_disjoint a q k Hk Ha) as H.
  rewrite <- Z.lxor_lor by exact H. symmetry. apply Z.add_nocarry_lxor, H.
Qed.

Lemma land_0x7f y : Z.land y 0x7f = y mod 128.
Proof. apply (Z.land_ones y 7). lia. Qed.

Lemma land_1 y : Z.land y 1 = y mod 2.
Proof. apply (Z.land_ones y 1). lia. Qed.

Lemma continuation_byte a : 0 <= a < 128 ->
  Z.lor a 0x80 = a + 128 /\ Z.land (Z.lor a 0x80) 0x7f = a /\ Z.land (Z.lor a 0x80) 0x80 = 128.
Proof.
  intros Ha. pose proof (lor_disjoint a 1 7 ltac:(lia) ltac:(simpl; lia)) as Hlor.
  change (1 * 2 ^ 7) with 128 in Hlor. change 0x80 with 128.
  rewrite Hlor. split; [reflexivity|split].
  - rewrite land_0x7f. Z.div_mod_to_equations. lia.
  - rewrite <- Hlor, Z.land_lor_distr_l.
    rewrite (land_disjoint a 1 7 ltac:(lia) ltac:(simpl; lia) : Z.land a 128 = 0).
    reflexivity.
Qed.

Lemma final_byte y : 0 <= y < 128 -> Z.land y 0x7f = y /\ Z.land y 0x80 = 0.
Proof.
  intros Hy. split.
  - rewrite land_0x7f. apply Z.mod_small. lia.
  - apply (land_disjoint y 1 7); simpl; lia.
Qed.

Ltac exponents :=
  repeat match goal with
  | |- context [7 * Z.of_nat ?c] =>
      let v := eval compute in (7 * Z.of_nat c) in change (7 * Z.of_nat c) with v
  | H : context [7 * Z.of_nat ?c] |- _ =>
      let v := eval compute in (7 * Z.of_nat c) in change (7 * Z.of_nat c) with v in H
  | |- context [32 - Zpos ?p] =>
      let v := eval compute in (32 - Zpos p) in change (32 - Zpos p) with v
  | H : context [32 - Zpos ?p] |- _ =>
      let v := eval compute in (32 - Zpos p) in change (32 - Zpos p) with v in H
  | |- context [32 - 0] => change (32 - 0) with 32
  | H : context [32 - 0] |- _ => change (32 - 0) with 32 in H
  end.

Lemma readVarintLoop_varintLoop n : forall c acc y rest,
  (c + n = 4)%nat ->
  0 <= acc < 2 ^ (7 * Z.of_nat c) ->
  0 <= y < 2 ^ (32 - 7 * Z.of_nat c) ->
  ByteBuffer.readVarintLoop c acc (ByteBuffer.varintLoop n y ++ rest)
  = Some (wrap32 (acc + y * 2 ^ (7 * Z.of_nat c))).
Proof.
  induction n as [|n IH]; intros c acc y rest Hc Hacc Hy.
  - assert (c = 4%nat) by lia. subst c. exponents. simpl.
    destruct (final_byte y ltac:(lia)) as [-> ->]. simpl.
    rewrite Z.shiftl_mul_pow2 by lia.
    assert (Hq : exists q, wrap32 (y * 2 ^ 28) = q * 2 ^ 28).
    { exists (y - 16 * ((y * 2 ^ 28 + 2 ^ 31) / 2 ^ 32)). unfold wrap32.
      Z.div_mod_to_equations. lia. }
    destruct Hq as [q Hq]. exponents. rewrite <- wrap32_add_wrap32, !Hq.
    rewrite lor_disjoint by lia. reflexivity.
  - assert (Hlt : (c <? 5)%nat = true) by (apply Nat.ltb_lt; lia).
    simpl ByteBuffer.varintLoop. destruct (0x80 <=? y) eqn:E.
    + apply Z.leb_le in E. change 0x80 with 128 in E.
      rewrite <- app_comm_cons. simpl ByteBuffer.readVarintLoop. rewrite Hlt.
      destruct (continuation_byte (Z.land y 0x7f)
                  ltac:(rewrite land_0x7f; Z.div_mod_to_equations; lia)) as (_ & -> & ->).
      rewrite land_0x7f. simpl (128 =? 0). cbv iota.
      rewrite Z.shiftl_mul_pow2 by lia. rewrite Z.shiftr_div_pow2 by lia.
      rewrite IH; [f_equal; f_equal| lia | |].
      all: destruct c as [|[|[|[|c]]]]; try lia; exponents;
        rewrite ?wrap32_small by (Z.div_mod_to_equations; lia);
        rewrite ?(lor_disjoint acc (y mod 128)) by lia;
        try (Z.div_mod_to_equations; lia).
    + apply Z.leb_gt in E. change 0x80 with 128 in E.
      simpl. rewrite Hlt. destruct (final_byte y ltac:(lia)) as [-> ->]. simpl.
      rewrite Z.shiftl_mul_pow2 by lia.
      destruct c as [|[|[|[|c]]]]; try lia; exponents;
        rewrite (wrap32_small (y * _)) by lia;
        rewrite (lor_disjoint acc y) by lia; reflexivity.
Qed.

(** What writeVarint32 writes, readVarint32 reads back as a signed 32-bit
    integer, whatever follows it. *)
Lemma readVarint32_varint32 x rest :
  ByteBuffer.readVarint32 (ByteBuffer.varint32 x ++ rest) = Some (wrap32 x).
Proof.
  unfold ByteBuffer.readVarint32, ByteBuffer.varint32.
  rewrite (readVarintLoop_varintLoop 4 0 0 (toUint32 x) rest); [|reflexivity|simpl; lia|].
  - f_equal. simpl. rewrite Z.mul_1_r. unfold wrap32, toUint32. Z.div_mod_to_equations. lia.
  - unfold toUint32. simpl. Z.div_mod_to_equations. lia.
Qed.

(** zigZagDecode32 inverts the zigzag map on signed 32-bit integers. *)
Lemma zigZag32_roundtrip n :
  - 2 ^ 31 <= n < 2 ^ 31 ->
  ByteBuffer.zigZagDecode32 (wrap32 (toUint32 (Z.lxor (wrap32 (Z.shiftl n 1)) (Z.shiftr n 31)))) = n.
Proof.
  intros Hn. unfold ByteBuffer.zigZagDecode32.
  rewrite toUint32_wrap32, land_1.
  rewrite (Z.shiftl_mul_pow2 n 1), (Z.shiftr_div_pow2 n 31) by lia.
  rewrite Z.shiftr_div_pow2 by lia.
  destruct (Z.lt_ge_cases n 0) as [Hneg|Hpos].
  - replace (n / 2 ^ 31) with (-1) by (Z.div_mod_to_equations; lia).
    rewrite Z.lxor_m1_r. unfold Z.lnot.
    replace ((wrap32 _) mod 2) with 1 by euclid.
    replace (toUint32 _ / 2 ^ 1) with (- n - 1) by euclid.
    rewrite Z.lxor_m1_r. unfold Z.lnot. euclid.
  - replace (n / 2 ^ 31) with 0 by (Z.div_mod_to_equations; lia).
    rewrite Z.lxor_0_r.
    replace ((wrap32 _) mod 2) with 0 by euclid.
    replace (toUint32 _ / 2 ^ 1) with n by euclid.
    simpl (- 0). rewrite Z.lxor_0_r. euclid.
Qed.

(** The loop of writeVarint32 stops by itself: [n] continuation bytes are
    enough for a value below [2^(7(n+1))], and more are never used. *)
Lemma varintLoop_enough n : forall m y,
  0 <= y < 2 ^ (7 * (Z.of_nat n + 1)) ->
  ByteBuffer.varintLoop (n + m) y = ByteBuffer.varintLoop n y.
Proof.
  induction n as [|n IH]; intros m y Hy.
  - change (2 ^ (7 * (Z.of_nat 0 + 1))) with 128 in Hy.
    destruct m; [reflexivity|]. simpl.
    replace (128 <=? y) with false by (symmetry; apply Z.leb_gt; lia). reflexivity.
  - simpl. destruct (128 <=? y); [|reflexivity]. f_equal. apply IH.
    rewrite Z.shiftr_div_pow2 by lia.
    replace (7 * (Z.of_nat (S n) + 1)) with (7 * (Z.of_nat n + 1) + 7) in Hy by lia.
    rewrite Z.pow_add_r in Hy by lia.
    split; [apply Z.div_pos; lia|apply Z.div_lt_upper_bound; lia].
Qed.

Lemma varint32_any_bound m x :
  ByteBuffer.varintLoop (4 + m) (toUint32 x) = ByteBuffer.varint32 x.
Proof.
  apply varintLoop_enough. unfold toUint32. simpl. Z.div_mod_to_equations. lia.
Qed.

Lemma varint64_any_bound m x :
  ByteBuffer.varintLoop (9 + m) (x mod 2 ^ 64) = ByteBuffer.varint64 x.
Proof.
  apply varintLoop_enough. simpl. Z.div_mod_to_equations. lia.
Qed.

(** ** The dictionary object *)

Lemma hasOwnProperty_bind {B} key (f : option nat -> Js B) this buf :
  (hasOwnProperty key ≫= f) this buf =
  match dict this !! "hasOwnProperty"%string with
  | Some _ => (Throw TypeError_NotAFunction, this, buf)
  | None => f (dict this !! key) this buf
  end.
Proof.
  rewrite bind_unfold. unfold hasOwnProperty.
  destruct (dict this !! "hasOwnProperty"%string); reflexivity.
Qed.

Lemma assign_proto index d : assign "__proto__" index d = d.
Proof. reflexivity. Qed.

Lemma assign_insert key index d :
  key <> "__proto__"%string -> assign key index d = <[key := index]> d.
Proof.
  intros H. unfold assign. destruct (String.eqb key "__proto__") eqn:E; [|reflexivity].
  apply String.eqb_eq in E. contradiction.
Qed.

(** What an assignment leaves to be found. *)
Lemma assign_lookup key index d k :
  assign key index d !! k
  = if decide (key <> "__proto__"%string /\ key = k) then Some index else d !! k.
Proof.
  destruct (decide (key = "__proto__"%string)) as [->|Hkey].
  - rewrite assign_proto. case_decide as H; [destruct H; contradiction|reflexivity].
  - rewrite assign_insert, lookup_insert by exact Hkey.
    repeat case_decide; try reflexivity; exfalso; tauto.
Qed.

Lemma usable_withKey key this :
  key <> "hasOwnProperty"%string -> usable this -> usable (withKey key this).
Proof.
  unfold usable. intros Hkey Hu. simpl. rewrite assign_lookup.
  case_decide as H; [destruct H; contradiction|exact Hu].
Qed.

(** ** Properties of the encoder that every method keeps *)

Section Invariants.
Variable tags : T.t.
Variable exponentDigit : number -> digit.
Variable I : Encoder -> Prop.
Hypothesis I_add : KeptByAdding I.

Lemma keeps_same {A} (m : Js A) :
  (forall this buf, (m this buf).1.2 = this) -> Keeps I m.
Proof. intros H this buf HI. rewrite H. exact HI. Qed.

Lemma keeps_ret {A} (a : A) : Keeps I (mret a : Js A).
Proof. apply keeps_same. reflexivity. Qed.

Lemma keeps_throw {A} e : Keeps I (throw e : Js A).
Proof. apply keeps_same. reflexivity. Qed.

Lemma keeps_write bs : Keeps I (write bs).
Proof.
  apply keeps_same. intros this buf. unfold write.
  destruct (ByteBuffer.illegalOffset buf); reflexivity.
Qed.

Lemma keeps_writeOrdered bs : Keeps I (writeOrdered bs).
Proof. intros this buf. apply keeps_write. Qed.

Lemma keeps_bind {A B} (m : Js A) (f : A -> Js B) :
  Keeps I m -> (forall a, Keeps I (f a)) -> Keeps I (m ≫= f).
Proof.
  intros Hm Hf this buf HI. rewrite bind_unfold.
  specialize (Hm this buf HI).
  destruct (m this buf) as [[[a|e] this1] buf1]; simpl in Hm; [apply Hf|]; exact Hm.
Qed.

Lemma keeps_tryCatch {A} (body : Js A) handler :
  Keeps I body -> (forall e, Keeps I (handler e)) -> Keeps I (tryCatch body handler).
Proof.
  intros Hbody Hhandler this buf HI. unfold tryCatch.
  specialize (Hbody this buf HI).
  destruct (body this buf) as [[[a|e] this1] buf1]; simpl in Hbody; [|apply Hhandler]; exact Hbody.
Qed.

Lemma keeps_if {A} (b : bool) (m1 m2 : Js A) :
  Keeps I m1 -> Keeps I m2 -> Keeps I (if b then m1 else m2).
Proof. destruct b; auto. Qed.

Lemma keeps_forEach {A} (f : A -> Js unit) xs :
  (forall x, Keeps I (f x)) -> Keeps I (forEach f xs).
Proof.
  intros Hf. induction xs as [|x xs IH]; simpl.
  - apply keeps_ret.
  - apply keeps_bind; auto.
Qed.

Lemma keeps_forEach_each {A} (f : A -> Js unit) xs :
  Forall (fun x => Keeps I (f x)) xs -> Keeps I (forEach f xs).
Proof.
  induction 1 as [|x xs Hx _ IH]; simpl.
  - apply keeps_ret.
  - apply keeps_bind; auto.
Qed.

Lemma keeps_getThis {B} (f : Encoder -> Js B) :
  (forall this, Keeps I (f this)) -> Keeps I (getThis ≫= f).
Proof. intros Hf this buf HI. rewrite bind_unfold. apply Hf, HI. Qed.

Lemma keeps_hasOwnProperty {B} key (f : option nat -> Js B) :
  (forall found, Keeps I (f found)) -> Keeps I (hasOwnProperty key ≫= f).
Proof.
  intros Hf this buf HI. rewrite hasOwnProperty_bind.
  destruct (dict this !! "hasOwnProperty"%string); [exact HI|apply Hf, HI].
Qed.

Create HintDb keeps.
Hint Resolve keeps_ret keeps_throw keeps_write keeps_writeOrdered keeps_bind
  keeps_tryCatch keeps_if keeps_forEach : keeps.
Hint Unfold writeUint8 writeVarint32 writeVarint32ZigZag writeVarint64ZigZag
  writeFloat32 writeFloat64 writeVString append : keeps.

Ltac keeps := repeat (autounfold with keeps; intros; eauto 10 with keeps).

Lemma keeps_encodeString val : Keeps I (encodeString tags val).
Proof.
  unfold encodeString. apply keeps_if; [keeps|].
  apply keeps_hasOwnProperty. intros [index|]; keeps.
Qed.

Lemma keeps_encodeNumber val : Keeps I (encodeNumber tags exponentDigit val).
Proof. unfold encodeNumber. cbv zeta. keeps. Qed.

Lemma keeps_encodeKey excluded key : Keeps I (encodeKey tags excluded key).
Proof.
  intros this buf HI. unfold encodeKey. rewrite hasOwnProperty_bind.
  destruct (dict this !! "hasOwnProperty"%string); [exact HI|].
  destruct (dict this !! key) as [index|] eqn:E.
  - clear E. revert this buf HI.
    change (Keeps I (writeUint8 (T.STRING_GET tags);; writeVarint32 (Z.of_nat index))).
    keeps.
  - rewrite bind_unfold. change (getThis this buf) with (Normal this, this, buf). cbv iota.
    destruct (progressive this && negb excluded) eqn:Ep.
    + apply andb_true_iff in Ep as [Ep _].
      pose proof (I_add this key HI Ep E) as Hadd.
      rewrite !bind_unfold. unfold addToDictionary, writeUint8, writeVString, write.
      destruct (ByteBuffer.illegalOffset buf) eqn:Eo; simpl; rewrite ?Eo; exact Hadd.
    + clear E Ep. revert this buf HI.
      change (Keeps I (writeUint8 (T.STRING tags);; writeVString key)).
      keeps.
Qed.

Lemma keeps_encodeObject recur hidden properties excluded :
  (forall v e, Keeps I (recur v e)) ->
  Keeps I (encodeObject tags recur hidden properties excluded).
Proof.
  intros Hrecur. unfold encodeObject. cbv zeta.
  pose proof keeps_encodeKey. keeps.
Qed.

Lemma keeps_encodeValue frames : forall val excluded,
  Keeps I (_encodeValue tags exponentDigit frames val excluded).
Proof.
  induction frames as [|frames IH]; intros val excluded.
  - apply keeps_throw.
  - pose proof keeps_encodeString. pose proof keeps_encodeNumber.
    pose proof keeps_encodeObject.
    destruct val; simpl; keeps.
Qed.

Lemma keeps_encode frames json buf this :
  I this -> I (encode tags exponentDigit frames json buf this).1.2.
Proof.
  intros HI. unfold encode.
  pose proof (keeps_encodeValue frames json false this
                (ByteBuffer.LE match buf with Some b => b | None => ByteBuffer.create end) HI) as H.
  destruct (_encodeValue tags exponentDigit frames json false this _) as [[[[]|e] this'] buf'];
    exact H.
Qed.

Lemma keeps_session calls : forall this,
  I this -> I (session tags exponentDigit calls this).
Proof.
  unfold session. induction calls as [|[[frames json] buf] calls IH]; intros this HI.
  - exact HI.
  - simpl. apply IH, keeps_encode, HI.
Qed.
End Invariants.

(** ** The dictionary stays usable *)

Section Usable.
Variable tags : T.t.
Variable exponentDigit : number -> digit.

Lemma keeps_run (I : Encoder -> Prop) {A} (m : Js A) this buf outcome this' buf' :
  Keeps I m -> I this -> m this buf = (outcome, this', buf') -> I this'.
Proof. intros Hm HI Hrun. specialize (Hm this buf HI). rewrite Hrun in Hm. exact Hm. Qed.

(** Only the key "hasOwnProperty" takes the method away. *)
Lemma usable_encodeKey excluded key :
  key <> "hasOwnProperty"%string -> Keeps usable (encodeKey tags excluded key).
Proof.
  intros Hkey this buf Hu. unfold encodeKey. rewrite hasOwnProperty_bind.
  destruct (dict this !! "hasOwnProperty"%string); [exact Hu|].
  destruct (dict this !! key) as [index|].
  - revert this buf Hu. apply keeps_bind; [apply keeps_write|intros _; apply keeps_write].
  - rewrite bind_unfold. change (getThis this buf) with (Normal this, this, buf). cbv iota.
    destruct (progressive this && negb excluded).
    + rewrite !bind_unfold. unfold addToDictionary, writeUint8, writeVString, write.
      destruct (ByteBuffer.illegalOffset buf) eqn:Eo; simpl; rewrite ?Eo;
        apply usable_withKey; assumption.
    + revert this buf Hu. apply keeps_bind; [apply keeps_write|intros _; apply keeps_write].
Qed.

Lemma noHasOwnPropertyKey_properties hidden properties :
  noHasOwnPropertyKey (VObjectHidden hidden properties) = true ->
  Forall
    (fun kv : string * value =>
       kv.1 <> "hasOwnProperty"%string /\ noHasOwnPropertyKey kv.2 = true)
    properties.
Proof.
  simpl. intros H. apply Forall_forall. intros kv Hkv.
  rewrite forallb_forall in H. specialize (H kv (proj1 (list_elem_of_In _ _) Hkv)).
  apply andb_true_iff in H as [Hk Hv]. split; [|exact Hv].
  intros E. rewrite E in Hk. discriminate.
Qed.

Lemma usable_encodeObject recur hidden properties excluded :
  Forall
    (fun kv : string * value =>
       kv.1 <> "hasOwnProperty"%string /\ Keeps usable (recur kv.2 false))
    properties ->
  Keeps usable (encodeObject tags recur hidden properties excluded).
Proof.
  intros Hrecur. unfold encodeObject. cbv zeta.
  apply keeps_if; [apply keeps_write|].
  do 2 (apply keeps_bind; [apply keeps_write|intros _]).
  apply keeps_forEach_each. eapply Forall_impl; [exact Hrecur|].
  intros kv [Hk Hv]. simpl. apply keeps_if; [apply keeps_ret|].
  apply keeps_bind; [apply usable_encodeKey, Hk|intros _; exact Hv].
Qed.

(** A value none of whose objects has the key "hasOwnProperty" leaves the
    dictionary usable, however the call ends. *)
Lemma usable_encodeValue frames : forall val excluded,
  noHasOwnPropertyKey val = true ->
  Keeps usable (_encodeValue tags exponentDigit frames val excluded).
Proof.
  induction frames as [|frames IH]; intros val excluded Hval.
  - apply keeps_throw.
  - destruct val; simpl;
      try (apply keeps_write || apply keeps_ret
           || (apply keeps_bind; [apply keeps_write|intros _; apply keeps_write])).
    + apply keeps_encodeNumber.
    + apply keeps_encodeString.
    + apply keeps_encodeString.
    + apply keeps_tryCatch.
      * do 2 (apply keeps_bind; [apply keeps_write|intros _]). apply keeps_write.
      * intros _. apply usable_encodeObject.
        repeat constructor; try discriminate; apply IH; destruct bytes; reflexivity.
    + apply keeps_if; [apply keeps_write|].
      do 2 (apply keeps_bind; [apply keeps_write|intros _]).
      apply keeps_forEach_each, Forall_forall. intros x Hx. apply IH.
      simpl in Hval. rewrite forallb_forall in Hval. apply Hval, list_elem_of_In, Hx.
    + apply keeps_tryCatch; [apply keeps_throw|intros _].
      apply usable_encodeObject.
      eapply Forall_impl; [apply (noHasOwnPropertyKey_properties _ _ Hval)|].
      intros kv [Hk Hv]. split; [exact Hk|apply IH, Hv].
Qed.
End Usable.

(** ** The claims of the specification *)

Section Properties.
Variable tags : T.t.
Variable exponentDigit : number -> digit.

#[local] Abbreviation encodeValue := (_encodeValue tags exponentDigit).
#[local] Abbreviation encodeTop := (encode tags exponentDigit).

(** *** Unfolding [_encodeValue] one frame *)

Lemma encodeValue_array frames elements excluded :
  encodeValue (S frames) (VArray elements) excluded =
  if (length elements =? 0)%nat then writeUint8 (T.EARRAY tags)
  else
    writeUint8 (T.ARRAY tags);;
    writeVarint32 (Z.of_nat (length elements));;
    forEach (fun element => encodeValue frames element false) elements.
Proof. reflexivity. Qed.

Lemma encodeValue_object frames hidden properties excluded this buf :
  encodeValue (S frames) (VObjectHidden hidden properties) excluded this buf =
  encodeObject tags (encodeValue frames) hidden properties excluded this buf.
Proof. reflexivity. Qed.

Lemma encodeValue_number frames n excluded :
  encodeValue (S frames) (VNumber n) excluded = encodeNumber tags exponentDigit n.
Proof. reflexivity. Qed.

(** On a new buffer a single accepted write, flipped, is what [encode]
    returns. *)
Lemma encode_single_write frames json bs this :
  (let buf := ByteBuffer.LE ByteBuffer.create in
   encodeValue frames json false this buf = write bs this buf) ->
  encodeTop frames json None this =
  (Normal tt, this,
   {| ByteBuffer.behind := []; ByteBuffer.ahead := bs;
      ByteBuffer.littleEndian := false; ByteBuffer.illegalOffset := false |}).
Proof. intros H. unfold encode. rewrite H. reflexivity. Qed.

(** *** Undefined outside objects *)

(** C9: [undefined] passed to [encode] directly is written as the one
    byte of the Null tag, exactly as [null] is; and as an element of an
    array it is written as the Null tag in its place, between the
    encodings of the elements before and after it, so that the array is
    encoded as the one that holds [null] there. *)
Theorem undefined_is_written_as_null frames this :
  encodeTop (S frames) VUndefined None this =
    (Normal tt, this,
     {| ByteBuffer.behind := []; ByteBuffer.ahead := [T.NULL tags mod 256];
        ByteBuffer.littleEndian := false; ByteBuffer.illegalOffset := false |})
  /\ encodeTop (S frames) VUndefined None this = encodeTop (S frames) VNull None this
  /\ forall excluded pre post buf,
      encodeValue (S (S frames)) (VArray (pre ++ VUndefined :: post)) excluded this buf =
      (writeUint8 (T.ARRAY tags);;
       writeVarint32 (Z.of_nat (length (pre ++ VUndefined :: post)));;
       forEach (fun element => encodeValue (S frames) element false) pre;;
       writeUint8 (T.NULL tags);;
       forEach (fun element => encodeValue (S frames) element false) post) this buf
      /\ encodeValue (S (S frames)) (VArray (pre ++ VUndefined :: post)) excluded this buf =
         encodeValue (S (S frames)) (VArray (pre ++ VNull :: post)) excluded this buf.
Proof.
  split; [|split].
  - apply encode_single_write. reflexivity.
  - reflexivity.
  - intros excluded pre post buf.
    assert (Hnull : forall x, x = VUndefined \/ x = VNull ->
              encodeValue (S (S frames)) (VArray (pre ++ x :: post)) excluded this buf =
              (writeUint8 (T.ARRAY tags);;
               writeVarint32 (Z.of_nat (length (pre ++ VUndefined :: post)));;
               forEach (fun element => encodeValue (S frames) element false) pre;;
               writeUint8 (T.NULL tags);;
               forEach (fun element => encodeValue (S frames) element false) post) this buf);
      [|split; [apply Hnull; left; reflexivity
               |rewrite !Hnull by (left + right; reflexivity); reflexivity]].
    intros x Hx. rewrite encodeValue_array.
    replace (length (pre ++ VUndefined :: post)) with (length (pre ++ x :: post))
      by (rewrite !length_app; reflexivity).
    replace (length (pre ++ x :: post) =? 0)%nat with false
      by (symmetry; apply Nat.eqb_neq; rewrite length_app; simpl; lia).
    apply bind_congr. intros [] this1 buf1 _.
    apply bind_congr. intros [] this2 buf2 _.
    rewrite forEach_app. apply bind_congr. intros [] this3 buf3 _.
    destruct Hx as [-> | ->]; reflexivity.
Qed.

(** *** The byte order of the target buffer *)

(** C6: whatever [encode] is given and however it ends, by returning or
    by throwing, the buffer has the byte order it had before the call (big
    endian for a buffer the call creates itself); during the call the
    order is little endian, so the outcome does not depend on the order the
    buffer came with. *)
Theorem encode_restores_byte_order frames json buf this :
  let before := match buf with Some b => b | None => ByteBuffer.create end in
  ByteBuffer.littleEndian (encodeTop frames json buf this).2
    = ByteBuffer.littleEndian before
  /\ forall b,
       encodeTop frames json (Some b) this =
       let '(outcome, this', b') := encodeTop frames json (Some (ByteBuffer.LE b)) this in
       (outcome, this', ByteBuffer.setLittleEndian (ByteBuffer.littleEndian b) b').
Proof.
  split.
  - unfold encode.
    destruct (encodeValue frames json false this _) as [[[[]|e] this'] buf'];
      destruct buf; reflexivity.
  - intros b. unfold encode.
    change (ByteBuffer.LE (ByteBuffer.LE b)) with (ByteBuffer.LE b).
    destruct (encodeValue frames json false this _) as [[[[]|e] this'] buf'];
      reflexivity.
Qed.

(** *** Objects *)

Lemma countDefined_present properties :
  countDefined properties = length (present properties).
Proof.
  unfold countDefined.
  enough (G : forall n, fold_left
              (fun (n : nat) (kv : string * value) => if isUndefined kv.2 then n else S n)
              properties n = (n + length (present properties))%nat)
    by (rewrite G; reflexivity).
  induction properties as [|[k v] ps IH]; intros n; simpl.
  - lia.
  - rewrite IH. destruct (isUndefined v); simpl; lia.
Qed.

(** The second loop skips the same properties as the first. *)
Lemma forEach_present (body : string * value -> Js unit) properties this buf :
  forEach (fun kv => if isUndefined kv.2 then mret tt else body kv) properties this buf =
  forEach body (present properties) this buf.
Proof.
  revert this buf. induction properties as [|[k v] ps IH]; intros this buf.
  - reflexivity.
  - simpl. destruct (isUndefined v); simpl.
    + rewrite bind_unfold. apply IH.
    + apply bind_congr. intros [] this' buf' _. apply IH.
Qed.

Lemma exclusion_flag excluded sentinel :
  (if negb excluded then truthy sentinel else excluded) = excluded || truthy sentinel.
Proof. destruct excluded; reflexivity. Qed.

(** On a plain object the sentinel is read from the own enumerable
    properties. *)
Lemma readSentinel_plain properties :
  readSentinel VUndefined properties = getProperty "_PSON_EXCL_" properties.
Proof.
  induction properties as [|[k v] ps IH]; simpl; [reflexivity|].
  destruct (String.eqb k "_PSON_EXCL_"); [reflexivity|exact IH].
Qed.

(** An own enumerable property comes before anything out of sight. *)
Lemma readSentinel_first hidden pre v post :
  "_PSON_EXCL_"%string ∉ pre.*1 ->
  readSentinel hidden (pre ++ ("_PSON_EXCL_"%string, v) :: post) = v.
Proof.
  induction pre as [|[k w] pre IH]; simpl; intros Hnot; [reflexivity|].
  destruct (String.eqb k "_PSON_EXCL_") eqn:E.
  - apply String.eqb_eq in E. subst. exfalso. apply Hnot. left.
  - apply IH. intros Hin. apply Hnot. right. exact Hin.
Qed.

(** An object, whatever it has out of sight: the EmptyObject tag when no
    property is defined; otherwise the Object tag, the number of defined
    properties, and then key and value of each of them in order. *)
Lemma encodeValue_object_run frames hidden properties excluded this buf :
  encodeValue (S frames) (VObjectHidden hidden properties) excluded this buf =
  (if (length (present properties) =? 0)%nat then writeUint8 (T.EOBJECT tags)
   else
     writeUint8 (T.OBJECT tags);;
     writeVarint32 (Z.of_nat (length (present properties)));;
     forEach
       (fun kv =>
          encodeKey tags (excluded || truthy (readSentinel hidden properties)) kv.1;;
          encodeValue frames kv.2 false)
       (present properties)) this buf.
Proof.
  rewrite encodeValue_object. unfold encodeObject.
  rewrite countDefined_present, exclusion_flag.
  destruct (length (present properties) =? 0)%nat; [reflexivity|].
  apply bind_congr. intros [] this1 buf1 _.
  apply bind_congr. intros [] this2 buf2 _.
  rewrite forEach_present. reflexivity.
Qed.

Lemma encodeValue_hidden_present frames hidden properties excluded this buf :
  present properties <> [] ->
  encodeValue (S frames) (VObjectHidden hidden properties) excluded this buf =
  (writeUint8 (T.OBJECT tags);;
   writeVarint32 (Z.of_nat (length (present properties)));;
   forEach
     (fun kv =>
        encodeKey tags (excluded || truthy (readSentinel hidden properties)) kv.1;;
        encodeValue frames kv.2 false)
     (present properties)) this buf.
Proof.
  intros Hne. rewrite encodeValue_object_run.
  destruct (present properties) as [|kv rest] eqn:E; [congruence|]. reflexivity.
Qed.

(** A plain object with a defined property. *)
Lemma encodeValue_object_present frames properties excluded this buf :
  present properties <> [] ->
  encodeValue (S frames) (VObject properties) excluded this buf =
  (writeUint8 (T.OBJECT tags);;
   writeVarint32 (Z.of_nat (length (present properties)));;
   forEach
     (fun kv =>
        encodeKey tags (excluded || truthy (getProperty "_PSON_EXCL_" properties)) kv.1;;
        encodeValue frames kv.2 false)
     (present properties)) this buf.
Proof.
  intros Hne. rewrite encodeValue_hidden_present by exact Hne.
  rewrite readSentinel_plain. reflexivity.
Qed.

Lemma present_app ps qs : present (ps ++ qs) = present ps ++ present qs.
Proof. apply List.filter_app. Qed.

(** What [encodeKey] does, case by case. *)
Lemma encodeKey_cases excluded key this buf :
  encodeKey tags excluded key this buf =
  match dict this !! "hasOwnProperty"%string with
  | Some _ => (Throw TypeError_NotAFunction, this, buf)
  | None =>
      match dict this !! key with
      | Some index =>
          write ((T.STRING_GET tags mod 256) :: ByteBuffer.varint32 (Z.of_nat index))
            this buf
      | None =>
          if progressive this && negb excluded
          then (addToDictionary key;;
                write ((T.STRING_ADD tags mod 256) :: ByteBuffer.vstring key)) this buf
          else write ((T.STRING tags mod 256) :: ByteBuffer.vstring key) this buf
      end
  end.
Proof.
  unfold encodeKey. rewrite hasOwnProperty_bind.
  destruct (dict this !! "hasOwnProperty"%string); [reflexivity|].
  destruct (dict this !! key) as [index|]; [apply (write_write [_])|].
  rewrite bind_unfold. change (getThis this buf) with (Normal this, this, buf). cbv iota.
  destruct (progressive this && negb excluded).
  - rewrite bind_assoc. apply bind_congr. intros [] this1 buf1 _.
    apply (write_write [_]).
  - apply (write_write [_]).
Qed.

(** What [encodeKey] does when the key is in the dictionary. *)
Lemma encodeKey_known excluded key index this buf :
  usable this ->
  dict this !! key = Some index ->
  encodeKey tags excluded key this buf =
  write ((T.STRING_GET tags mod 256) :: ByteBuffer.varint32 (Z.of_nat index)) this buf.
Proof. intros Hu H. rewrite encodeKey_cases, Hu, H. reflexivity. Qed.

(** What [encodeKey] does under exclusion. *)
Lemma encodeKey_excluded key this buf :
  encodeKey tags true key this buf =
  match dict this !! "hasOwnProperty"%string with
  | Some _ => (Throw TypeError_NotAFunction, this, buf)
  | None =>
      write
        match dict this !! key with
        | Some index => (T.STRING_GET tags mod 256) :: ByteBuffer.varint32 (Z.of_nat index)
        | None => (T.STRING tags mod 256) :: ByteBuffer.vstring key
        end this buf
  end.
Proof.
  rewrite encodeKey_cases. destruct (dict this !! "hasOwnProperty"%string); [reflexivity|].
  destruct (dict this !! key); [reflexivity|]. rewrite andb_false_r. reflexivity.
Qed.

Lemma write_same bs this buf : (write bs this buf).1.2 = this.
Proof. unfold write. destruct (ByteBuffer.illegalOffset buf); reflexivity. Qed.

Lemma encodeKey_excluded_same key this buf :
  (encodeKey tags true key this buf).1.2 = this.
Proof.
  rewrite encodeKey_excluded. destruct (dict this !! "hasOwnProperty"%string); [reflexivity|].
  apply write_same.
Qed.

Lemma present_sublist properties : sublist (present properties) properties.
Proof.
  unfold present. induction properties as [|[k v] ps IH]; simpl.
  - constructor.
  - destruct (isUndefined v); simpl; constructor; exact IH.
Qed.

Lemma present_spec kv properties :
  kv ∈ present properties <-> kv ∈ properties /\ isUndefined kv.2 = false.
Proof.
  unfold present. rewrite !list_elem_of_In, List.filter_In, negb_true_iff. reflexivity.
Qed.




(** *** Numbers *)

Lemma sameMagnitude_refl m e : sameMagnitude m e m e = true.
Proof. unfold sameMagnitude. apply Z.eqb_refl. Qed.

Lemma sameMagnitude_integer m e q :
  e < 0 -> sameMagnitude m e q 0 = true -> Z.pos m mod 2 ^ (- e) = 0.
Proof.
  unfold sameMagnitude. intros He H. apply Z.eqb_eq in H.
  rewrite Z.min_l in H by lia.
  rewrite Z.sub_diag, Z.sub_0_l, Z.pow_0_r, Z.mul_1_r in H. rewrite H.
  apply Z.mod_mul. apply Z.pow_nonzero; lia.
Qed.

(** [val === parseInt(val)] fails for every Number that is not whole. *)
Lemma parseInt_fraction v :
  isInteger v = false -> strictEquals v (parseInt exponentDigit v) = false.
Proof.
  destruct v as [s|s| |s m e]; simpl; try congruence.
  intros H. apply orb_false_elim in H as [He Hm].
  apply Z.leb_gt in He. apply Z.eqb_neq in Hm.
  assert (Hdiff : forall q, sameMagnitude m e q 0 = false).
  { intros q. destruct (sameMagnitude m e q 0) eqn:S; [|reflexivity].
    exfalso. apply Hm. eapply sameMagnitude_integer; eauto. }
  destruct (positional m e).
  - unfold integerPart. replace (0 <=? e) with false by (symmetry; apply Z.leb_gt; lia).
    destruct (Z.pos m / 2 ^ (- e)) as [|q|q]; try reflexivity.
    rewrite Hdiff. apply andb_false_r.
  - rewrite Hdiff. apply andb_false_r.
Qed.

(** A whole Number other than zero is at least 1, not tiny. *)
Lemma integer_atLeast1em6 m e :
  (0 <=? e) || (Z.pos m mod 2 ^ (- e) =? 0) = true -> atLeast1em6 m e = true.
Proof.
  intros Hint. unfold atLeast1em6.
  assert (Hone : 0 <= e \/ e < 0 /\ exists q, 0 < q /\ Z.pos m = q * 2 ^ (- e)).
  { destruct (0 <=? e) eqn:He; [left; apply Z.leb_le, He|right].
    apply Z.leb_gt in He. split; [exact He|]. apply Z.eqb_eq in Hint.
    assert (Hpow : 0 < 2 ^ (- e)) by (apply Z.pow_pos_nonneg; lia).
    pose proof (Z.div_mod (Z.pos m) (2 ^ (- e)) ltac:(lia)) as Hdm.
    rewrite Hint, Z.add_0_r in Hdm.
    exists (Z.pos m / 2 ^ (- e)). split; [nia|lia]. }
  destruct (-72 <=? e) eqn:H72; [apply Z.leb_le in H72|apply Z.leb_gt in H72];
    apply Z.leb_le.
  - destruct Hone as [He|(He & q & Hq & Hm)].
    + assert (2 ^ 72 <= 2 ^ (e + 72)) by (apply Z.pow_le_mono_r; lia). nia.
    + rewrite Hm, <- Z.mul_assoc, <- Z.pow_add_r by lia.
      replace (- e + (e + 72)) with 72 by lia. lia.
  - destruct Hone as [He|(He & q & Hq & Hm)]; [lia|].
    replace (- e) with (72 + (- 72 - e)) in Hm by lia.
    rewrite Z.pow_add_r in Hm by lia.
    assert (0 < 2 ^ (- 72 - e)) by (apply Z.pow_pos_nonneg; lia). nia.
Qed.

(** It holds for every whole Number below [10^21] in magnitude. *)
Lemma parseInt_integer v :
  isInteger v = true -> magnitudeBelow1e21 v = true ->
  strictEquals v (parseInt exponentDigit v) = true.
Proof.
  destruct v as [s|s| |s m e]; simpl; try congruence.
  intros Hint Hbelow. unfold positional.
  rewrite (integer_atLeast1em6 m e Hint), Hbelow. unfold integerPart.
  destruct (0 <=? e) eqn:He; simpl.
  - rewrite Bool.eqb_reflx, sameMagnitude_refl. reflexivity.
  - apply Z.leb_gt in He. simpl in Hint. apply Z.eqb_eq in Hint.
    assert (Hpow : 0 < 2 ^ (- e)) by (apply Z.pow_pos_nonneg; lia).
    pose proof (Z.div_mod (Z.pos m) (2 ^ (- e)) ltac:(lia)) as Hdm.
    rewrite Hint, Z.add_0_r in Hdm.
    assert (Hq : 0 < Z.pos m / 2 ^ (- e)) by nia.
    destruct (Z.pos m / 2 ^ (- e)) as [|q|q] eqn:E; try lia.
    simpl. rewrite Bool.eqb_reflx. simpl. unfold sameMagnitude.
    rewrite Z.min_l by lia. rewrite Z.sub_diag, Z.sub_0_l.
    apply Z.eqb_eq. lia.
Qed.

Lemma zigZagEncode32_range v : 0 <= ByteBuffer.zigZagEncode32 v < 2 ^ 32.
Proof. unfold ByteBuffer.zigZagEncode32, toUint32. apply Z.mod_pos_bound. lia. Qed.

Lemma encodeNumber_small v this buf :
  strictEquals v (parseInt exponentDigit v) = true ->
  ByteBuffer.zigZagEncode32 v <= T.MAX tags ->
  encodeNumber tags exponentDigit v this buf
  = write [ByteBuffer.zigZagEncode32 v mod 256] this buf.
Proof.
  intros Hint Hle. unfold encodeNumber. rewrite Hint.
  apply Z.leb_le in Hle. rewrite Hle. reflexivity.
Qed.

Lemma encodeNumber_large v this buf :
  strictEquals v (parseInt exponentDigit v) = true ->
  T.MAX tags < ByteBuffer.zigZagEncode32 v ->
  encodeNumber tags exponentDigit v this buf
  = write ((T.INTEGER tags mod 256) ::
           ByteBuffer.varint32 (ByteBuffer.zigZagEncode32 v)) this buf.
Proof.
  intros Hint Hlt. unfold encodeNumber. rewrite Hint.
  apply Z.leb_gt in Hlt. rewrite Hlt. apply (write_write [_]).
Qed.

Lemma write_writeOrdered bs (cs : bool -> list Z) this buf :
  (write bs;; writeOrdered cs) this buf
  = write (bs ++ cs (ByteBuffer.littleEndian buf)) this buf.
Proof.
  rewrite bind_unfold. unfold writeOrdered, write.
  destruct (ByteBuffer.illegalOffset buf) eqn:E; [reflexivity|].
  simpl. rewrite E, put_put. reflexivity.
Qed.

Lemma encodeNumber_fraction v this buf :
  strictEquals v (parseInt exponentDigit v) = false ->
  encodeNumber tags exponentDigit v this buf
  = write
      (if strictEquals v (fround v)
       then (T.FLOAT tags mod 256) :: ByteBuffer.float32 (ByteBuffer.littleEndian buf) v
       else (T.DOUBLE tags mod 256) :: ByteBuffer.float64 (ByteBuffer.littleEndian buf) v)
      this buf.
Proof.
  intros Hfrac. unfold encodeNumber. rewrite Hfrac.
  destruct (strictEquals v (fround v)); apply (write_writeOrdered [_]).
Qed.

(** C4 (as amended): for every whole Number [v] below [10^21] in
    magnitude whose 32-bit zigzag value is at most [MAX] (itself a byte),
    [encode(v)] is the single byte [zigZagEncode32(v)]. *)
Theorem small_integer_is_its_zigzag_byte frames v this :
  isInteger v = true ->
  magnitudeBelow1e21 v = true ->
  ByteBuffer.zigZagEncode32 v <= T.MAX tags ->
  T.MAX tags <= 255 ->
  encodeTop (S frames) (VNumber v) None this =
  (Normal tt, this,
   {| ByteBuffer.behind := []; ByteBuffer.ahead := [ByteBuffer.zigZagEncode32 v];
      ByteBuffer.littleEndian := false; ByteBuffer.illegalOffset := false |}).
Proof.
  intros Hint Hbelow Hle Hbyte.
  apply encode_single_write. intros buf. rewrite encodeValue_number.
  rewrite encodeNumber_small by (try apply parseInt_integer; assumption).
  rewrite Z.mod_small by (pose proof (zigZagEncode32_range v); lia).
  reflexivity.
Qed.

(** C5: for every Number [v] that is not whole, [encode(v)] is the Float
    tag and the four bytes of [v] in single precision when converting [v]
    to single precision and back gives a Number equal to [v], and the
    Double tag and the eight bytes of the double otherwise (both little
    endian). *)
Theorem fraction_is_float_iff_exact frames v this :
  isInteger v = false ->
  encodeTop (S frames) (VNumber v) None this =
  (Normal tt, this,
   {| ByteBuffer.behind := [];
      ByteBuffer.ahead :=
        if strictEquals v (fround v)
        then (T.FLOAT tags mod 256) :: bytesLE 4 (bits32 v)
        else (T.DOUBLE tags mod 256) :: bytesLE 8 (bits64 v);
      ByteBuffer.littleEndian := false; ByteBuffer.illegalOffset := false |}).
Proof.
  intros Hfrac. apply encode_single_write. intros buf. rewrite encodeValue_number.
  rewrite encodeNumber_fraction by (apply parseInt_fraction, Hfrac).
  reflexivity.
Qed.

(** *** The dictionary *)

Lemma indexed_empty mode :
  Indexed [] {| dict := ∅; next := 0; progressive := mode |}.
Proof.
  split; [reflexivity|].
  intros key i. simpl. rewrite lookup_empty. split; [discriminate|].
  intros [_ H]. destruct i; discriminate.
Qed.

Lemma indexed_lookup log this n key :
  Indexed log this -> key <> "__proto__"%string -> log !! n = Some key ->
  dict this !! key = Some n.
Proof. intros (_ & H) Hkey Hn. apply H. split; assumption. Qed.

(** The name "__proto__" is never a key of a numbered dictionary. *)
Lemma indexed_proto log this :
  Indexed log this -> dict this !! "__proto__"%string = None.
Proof.
  intros (_ & H). destruct (dict this !! "__proto__"%string) as [i|] eqn:E; [|reflexivity].
  apply H in E as [E _]. contradiction.
Qed.

Lemma indexed_fresh log this key :
  Indexed log this -> key <> "__proto__"%string ->
  dict this !! key = None <-> key ∉ log.
Proof.
  intros (_ & H) Hkey. split.
  - intros Hnone Hin. apply list_elem_of_lookup in Hin as [i Hi].
    assert (dict this !! key = Some i) by (apply H; split; assumption). congruence.
  - intros Hnot. destruct (dict this !! key) as [i|] eqn:E; [|reflexivity].
    exfalso. apply Hnot. apply H in E as [_ E]. eapply list_elem_of_lookup_2, E.
Qed.

(** No key other than "__proto__" is in the log twice. *)
Lemma indexed_distinct log this key m n :
  Indexed log this -> key <> "__proto__"%string ->
  log !! m = Some key -> log !! n = Some key -> m = n.
Proof.
  intros (_ & H) Hkey Hm Hn.
  assert (Em : dict this !! key = Some m) by (apply H; split; assumption).
  assert (En : dict this !! key = Some n) by (apply H; split; assumption).
  congruence.
Qed.

(** [this.dict[key] = this.next++] for a key that the dictionary does not
    have appends the key to the log; "__proto__" takes its place in the log
    and its index, and is not stored. *)
Lemma indexed_add log this key :
  Indexed log this -> dict this !! key = None ->
  Indexed (log ++ [key]) (withKey key this).
Proof.
  intros (Hnext & H) Hnone. split; simpl.
  - rewrite length_app. simpl. lia.
  - intros k i. rewrite assign_lookup. case_decide as Hk.
    + destruct Hk as [Hkey <-]. rewrite Hnext. split.
      * intros [= <-]. split; [exact Hkey|].
        rewrite lookup_app_r by lia. rewrite Nat.sub_diag. reflexivity.
      * intros [_ Hi]. apply lookup_app_Some in Hi as [Hi|[Hge Hi]].
        -- assert (dict this !! key = Some i) by (apply H; split; assumption). congruence.
        -- destruct (i - length log)%nat eqn:D; [|destruct n; discriminate].
           f_equal. lia.
    + rewrite H. split.
      * intros [Hkp Hi]. split; [exact Hkp|]. apply lookup_app_l_Some, Hi.
      * intros [Hkp Hi]. split; [exact Hkp|].
        apply lookup_app_Some in Hi as [Hi|[Hge Hi]]; [exact Hi|].
        destruct (i - length log)%nat; simpl in Hi; [|destruct n; discriminate].
        injection Hi as ->. exfalso. apply Hk. split; [exact Hkp|reflexivity].
Qed.

(** The constructor's loop, started on any numbered dictionary. *)
Lemma seeding_indexed seeds : forall log this,
  Indexed log this -> NoDup (log ++ seeds) ->
  Indexed (log ++ seeds) (fold_left (fun this seed => withKey seed this) seeds this).
Proof.
  induction seeds as [|seed seeds IH]; intros log this HI Hnd; simpl.
  - rewrite app_nil_r. exact HI.
  - rewrite (assoc_L (++) log [seed] seeds : log ++ seed :: seeds = (log ++ [seed]) ++ seeds) in *.
    apply IH; [|exact Hnd]. apply indexed_add; [exact HI|].
    destruct (decide (seed = "__proto__"%string)) as [->|Hseed];
      [apply (indexed_proto log), HI|].
    apply (indexed_fresh log this seed HI Hseed).
    apply NoDup_app in Hnd as (Hnd & _ & _).
    apply NoDup_app in Hnd as (_ & Hnd & _).
    intros Hin. apply (Hnd seed Hin). left.
Qed.

(** The constructor numbers a seed list without repetition. *)
Lemma newEncoder_indexed seeds mode :
  NoDup seeds -> Indexed seeds (newEncoder seeds mode).
Proof.
  intros Hnodup. apply (seeding_indexed seeds [] _ (indexed_empty mode)), Hnodup.
Qed.

(** *** Every method only appends to the log *)

Lemma grows_same {A} (m : Js A) :
  (forall this buf, (m this buf).1.2 = this) -> Grows m.
Proof.
  intros Hsame log this buf HI. exists []. rewrite app_nil_r, Hsame. exact HI.
Qed.

Lemma grows_ret {A} (a : A) : Grows (mret a : Js A).
Proof. apply grows_same. reflexivity. Qed.

Lemma grows_throw {A} e : Grows (throw e : Js A).
Proof. apply grows_same. reflexivity. Qed.

Lemma grows_write bs : Grows (write bs).
Proof. apply grows_same. intros this buf. apply write_same. Qed.

Lemma grows_writeOrdered bs : Grows (writeOrdered bs).
Proof. intros log this buf. apply grows_write. Qed.

Lemma grows_bind {A B} (m : Js A) (f : A -> Js B) :
  Grows m -> (forall a, Grows (f a)) -> Grows (m ≫= f).
Proof.
  intros Hm Hf log this buf HI. rewrite bind_unfold.
  destruct (Hm log this buf HI) as [added1 H1].
  destruct (m this buf) as [[[a|e] this1] buf1]; simpl in H1.
  - destruct (Hf a _ this1 buf1 H1) as [added2 H2].
    exists (added1 ++ added2). rewrite (assoc_L (++)). exact H2.
  - exists added1. exact H1.
Qed.

Lemma grows_tryCatch {A} (body : Js A) handler :
  Grows body -> (forall e, Grows (handler e)) -> Grows (tryCatch body handler).
Proof.
  intros Hbody Hhandler log this buf HI. unfold tryCatch.
  destruct (Hbody log this buf HI) as [added1 H1].
  destruct (body this buf) as [[[a|e] this1] buf1]; simpl in H1.
  - exists added1. exact H1.
  - destruct (Hhandler e _ this1 buf1 H1) as [added2 H2].
    exists (added1 ++ added2). rewrite (assoc_L (++)). exact H2.
Qed.

Lemma grows_if {A} (b : bool) (m1 m2 : Js A) :
  Grows m1 -> Grows m2 -> Grows (if b then m1 else m2).
Proof. destruct b; auto. Qed.

Lemma grows_forEach {A} (f : A -> Js unit) xs :
  (forall x, Grows (f x)) -> Grows (forEach f xs).
Proof.
  intros Hf. induction xs as [|x xs IH]; simpl.
  - apply grows_ret.
  - apply grows_bind; auto.
Qed.

Create HintDb grows.
Hint Resolve grows_ret grows_throw grows_write grows_writeOrdered grows_bind
  grows_tryCatch grows_if grows_forEach : grows.
Hint Unfold writeUint8 writeVarint32 writeVarint32ZigZag writeVarint64ZigZag
  writeFloat32 writeFloat64 writeVString append : grows.

Ltac grows := repeat (autounfold with grows; intros; eauto 10 with grows).

Lemma grows_hasOwnProperty {B} key (f : option nat -> Js B) :
  (forall found, Grows (f found)) -> Grows (hasOwnProperty key ≫= f).
Proof.
  intros Hf log this buf HI. rewrite hasOwnProperty_bind.
  destruct (dict this !! "hasOwnProperty"%string); [|apply Hf, HI].
  exists []. rewrite app_nil_r. exact HI.
Qed.

Lemma grows_encodeString val : Grows (encodeString tags val).
Proof.
  unfold encodeString. apply grows_if; [grows|].
  apply grows_hasOwnProperty. intros [index|]; grows.
Qed.

Lemma grows_encodeNumber val : Grows (encodeNumber tags exponentDigit val).
Proof. unfold encodeNumber. cbv zeta. grows. Qed.

(** A key is added only when the dictionary does not have it, and then
    with [next] as index. *)
Lemma grows_encodeKey excluded key : Grows (encodeKey tags excluded key).
Proof.
  intros log this buf HI. rewrite encodeKey_cases.
  destruct (dict this !! "hasOwnProperty"%string);
    [exists []; rewrite app_nil_r; exact HI|].
  destruct (dict this !! key) as [index|] eqn:E; [apply grows_write, HI|].
  destruct (progressive this && negb excluded); [|apply grows_write, HI].
  exists [key]. rewrite bind_unfold. unfold addToDictionary. cbv iota.
  rewrite write_same. apply indexed_add; assumption.
Qed.

Lemma grows_encodeObject recur hidden properties excluded :
  (forall v e, Grows (recur v e)) ->
  Grows (encodeObject tags recur hidden properties excluded).
Proof.
  intros Hrecur. unfold encodeObject. cbv zeta.
  pose proof grows_encodeKey. grows.
Qed.

Lemma grows_encodeValue frames : forall val excluded,
  Grows (encodeValue frames val excluded).
Proof.
  induction frames as [|frames IH]; intros val excluded.
  - apply grows_throw.
  - pose proof grows_encodeString. pose proof grows_encodeNumber.
    pose proof grows_encodeObject.
    destruct val; simpl; grows.
Qed.

Lemma grows_encode frames json buf log this :
  Indexed log this ->
  exists added, Indexed (log ++ added) (encodeTop frames json buf this).1.2.
Proof.
  intros HI. unfold encode.
  destruct (grows_encodeValue frames json false log this
              (ByteBuffer.LE match buf with Some b => b | None => ByteBuffer.create end) HI)
    as [added Hadded].
  exists added.
  destruct (encodeValue frames json false this _) as [[[[]|e] this'] buf']; exact Hadded.
Qed.

Lemma grows_session calls : forall log this,
  Indexed log this ->
  exists added, Indexed (log ++ added) (session tags exponentDigit calls this).
Proof.
  unfold session. induction calls as [|[[frames json] buf] calls IH]; intros log this HI.
  - exists []. rewrite app_nil_r. exact HI.
  - simpl. destruct (grows_encode frames json buf log this HI) as [added1 H1].
    destruct (IH _ _ H1) as [added2 H2].
    exists (added1 ++ added2). rewrite (assoc_L (++)). exact H2.
Qed.

Lemma grows_run {A} (m : Js A) log this buf outcome this' buf' :
  Grows m -> Indexed log this -> m this buf = (outcome, this', buf') ->
  exists added, Indexed (log ++ added) this'.
Proof.
  intros Hm HI Hrun. destruct (Hm log this buf HI) as [added H].
  rewrite Hrun in H. exists added. exact H.
Qed.

Lemma present_each (P : string * value -> Prop) properties :
  Forall P properties -> Forall P (present properties).
Proof.
  intros H. unfold present. induction H as [|kv ps Hkv _ IH]; simpl; [constructor|].
  destruct (negb (isUndefined kv.2)); [constructor; assumption|exact IH].
Qed.

(** A key of the log, met again as a key of an object: whatever the
    properties before it add to the dictionary, short of the key
    "hasOwnProperty", it is written as the StringGet tag and its position in
    the log. *)
Lemma known_key_is_StringGet log this n key frames hidden pre v post excluded buf :
  Indexed log this -> log !! n = Some key -> key <> "__proto__"%string ->
  isUndefined v = false ->
  usable this -> noHasOwnPropertyKey (VObject pre) = true ->
  let pair := fun kv : string * value =>
    encodeKey tags
      (excluded || truthy (readSentinel hidden (pre ++ (key, v) :: post))) kv.1;;
    encodeValue frames kv.2 false in
  encodeValue (S frames) (VObjectHidden hidden (pre ++ (key, v) :: post)) excluded this buf =
  (writeUint8 (T.OBJECT tags);;
   writeVarint32 (Z.of_nat (length (present (pre ++ (key, v) :: post))));;
   forEach pair (present pre);;
   write ((T.STRING_GET tags mod 256) :: ByteBuffer.varint32 (Z.of_nat n));;
   encodeValue frames v false;;
   forEach pair (present post)) this buf.
Proof.
  intros HI Hn Hkey Hdef Hu Hpre pair.
  assert (Hpresent : present (pre ++ (key, v) :: post)
                     = present pre ++ (key, v) :: present post).
  { rewrite present_app. unfold present at 2. simpl. rewrite Hdef. reflexivity. }
  rewrite encodeValue_hidden_present by (rewrite Hpresent; destruct (present pre); discriminate).
  fold pair.
  apply bind_congr. intros [] this1 buf1 H1.
  apply bind_congr. intros [] this2 buf2 H2.
  rewrite Hpresent, forEach_app. apply bind_congr. intros [] this3 buf3 H3.
  rewrite forEach_cons.
  assert (Hpair : forall kv, Grows (pair kv)).
  { intros kv. apply grows_bind; [apply grows_encodeKey|intros _; apply grows_encodeValue]. }
  assert (Hkeep : Forall (fun kv => Keeps usable (pair kv)) (present pre)).
  { apply present_each.
    eapply Forall_impl; [apply (noHasOwnPropertyKey_properties _ _ Hpre)|].
    intros kv [Hk Hv]. apply keeps_bind; [apply usable_encodeKey, Hk|].
    intros _. apply usable_encodeValue, Hv. }
  unfold pair. cbn [fst snd]. fold pair. rewrite bind_assoc.
  destruct (grows_run _ _ _ _ _ _ _ (grows_write _) HI H1) as [a1 HI1].
  destruct (grows_run _ _ _ _ _ _ _ (grows_write _) HI1 H2) as [a2 HI2].
  destruct (grows_run _ _ _ _ _ _ _ (grows_forEach _ (present pre) Hpair) HI2 H3) as [a3 HI3].
  pose proof (keeps_run usable _ _ _ _ _ _ (keeps_write usable _) Hu H1) as Hu1.
  pose proof (keeps_run usable _ _ _ _ _ _ (keeps_write usable _) Hu1 H2) as Hu2.
  pose proof (keeps_run usable _ _ _ _ _ _ (keeps_forEach_each usable _ _ Hkeep) Hu2 H3) as Hu3.
  rewrite 2!(bind_unfold _ _ this3 buf3).
  rewrite (encodeKey_known _ key n); [reflexivity|exact Hu3|].
  apply (indexed_lookup _ _ _ _ HI3 Hkey). do 3 apply lookup_app_l_Some. exact Hn.
Qed.

Lemma session_app calls more this :
  session tags exponentDigit (calls ++ more) this
  = session tags exponentDigit more (session tags exponentDigit calls this).
Proof. apply fold_left_app. Qed.


(** *** Scenarios *)

(** C8: a static encoder seeded with "x" encodes [{x: true, y: false}]
    as the Object tag and the count 2, then StringGet and index 0 for "x"
    and the True tag, then the String tag with the one-byte string "y" and
    the False tag; the encoder, its dictionary included, is unchanged. *)
Theorem static_encoder_scenario frames :
  encodeTop (S (S frames))
    (VObject [("x"%string, VBool true); ("y"%string, VBool false)]) None
    (newEncoder ["x"%string] false) =
  (Normal tt, newEncoder ["x"%string] false,
   {| ByteBuffer.behind := [];
      ByteBuffer.ahead :=
        [T.OBJECT tags mod 256; 2;
         T.STRING_GET tags mod 256; 0; T.TRUE tags mod 256;
         T.STRING tags mod 256; 1; 121; T.FALSE tags mod 256];
      ByteBuffer.littleEndian := false; ByteBuffer.illegalOffset := false |}).
Proof. reflexivity. Qed.

(** C3 at 2147483648 = 2^31, a whole Number whose zigzag value
    4294967295 exceeds [MAX]: [encode] writes the Integer tag and the
    varint ff ff ff ff 0f, which reads back as -2147483648. *)
Theorem integer_2p31_is_written_as_its_negative frames this :
  T.MAX tags < 4294967295 ->
  let v := ofZ 2147483648 in
  isInteger v = true /\ truncZ v = 2147483648
  /\ ByteBuffer.zigZagEncode32 v = 4294967295
  /\ encodeTop (S frames) (VNumber v) None this =
     (Normal tt, this,
      {| ByteBuffer.behind := [];
         ByteBuffer.ahead := [T.INTEGER tags mod 256; 255; 255; 255; 255; 15];
         ByteBuffer.littleEndian := false; ByteBuffer.illegalOffset := false |})
  /\ ByteBuffer.readVarint32ZigZag [255; 255; 255; 255; 15] = Some (-2147483648).
Proof.
  intros Hmax v. repeat split.
  apply encode_single_write. intros buf. rewrite encodeValue_number.
  rewrite encodeNumber_large; [reflexivity|reflexivity|exact Hmax].
Qed.

(** *** Throwing *)

(** X18: on a buffer whose offset is out of range every value of a
    kind the switch handles (all but symbols and bigints) throws: nothing
    is written, the encoder is unchanged, and that holds for a binary value
    too, whose handler goes on to write the Object tag for the wrapper.
    With a dictionary that answers lookups what is thrown is the buffer's
    RangeError, from the first write. *)
Lemma rejecting_buffer_throws frames val excluded this buf :
  ByteBuffer.illegalOffset buf = true ->
  val <> VSymbol ->
  (forall n, val <> VBigInt n) ->
  (exists e,
     _encodeValue tags exponentDigit (S frames) val excluded this buf = (Throw e, this, buf))
  /\ (usable this ->
      _encodeValue tags exponentDigit (S frames) val excluded this buf
      = (Throw RangeError_IllegalOffset, this, buf)).
Proof.
  intros Hrej Hval Hbig.
  enough (Hmain : exists e,
            encodeValue (S frames) val excluded this buf = (Throw e, this, buf)
            /\ (usable this -> e = RangeError_IllegalOffset)).
  { destruct Hmain as (e & Hrun & He). split; [exists e; exact Hrun|].
    intros Hu. rewrite Hrun, (He Hu). reflexivity. }
  assert (Hw : forall bs (k : unit -> Js unit),
             (write bs ≫= k) this buf = (Throw RangeError_IllegalOffset, this, buf)).
  { intros bs k. rewrite bind_unfold, write_rejected by exact Hrej. reflexivity. }
  assert (Hstring : forall s, exists e,
             encodeString tags s this buf = (Throw e, this, buf)
             /\ (usable this -> e = RangeError_IllegalOffset)).
  { intros s. unfold encodeString. destruct (String.length s =? 0)%nat.
    - exists RangeError_IllegalOffset. split; [apply write_rejected, Hrej|reflexivity].
    - rewrite hasOwnProperty_bind. unfold usable.
      destruct (dict this !! "hasOwnProperty"%string) as [i|].
      + exists TypeError_NotAFunction. split; [reflexivity|discriminate].
      + exists RangeError_IllegalOffset. split; [|reflexivity].
        destruct (dict this !! s); apply Hw. }
  destruct val; try congruence; try apply Hstring;
    try (exfalso; eapply Hbig; reflexivity);
    exists RangeError_IllegalOffset; (split; [|reflexivity]); simpl.
  - apply write_rejected, Hrej.
  - apply write_rejected, Hrej.
  - apply write_rejected, Hrej.
  - unfold encodeNumber.
    repeat match goal with |- context [if ?c then _ else _] => destruct c end;
      first [apply Hw | apply write_rejected, Hrej].
  - apply Hw.
  - unfold tryCatch. unfold writeUint8 at 1. rewrite Hw.
    unfold encodeObject. apply Hw.
  - destruct (length elements =? 0)%nat; [apply write_rejected, Hrej|apply Hw].
  - unfold tryCatch, throw, encodeObject.
    destruct (countDefined properties =? 0)%nat; [apply write_rejected, Hrej|apply Hw].
Qed.

(** *** Returning normally *)

Lemma put_nil buf : ByteBuffer.put [] buf = buf.
Proof. destruct buf. unfold ByteBuffer.put. simpl. rewrite app_nil_r. reflexivity. Qed.

Lemma accepted_ret : Accepted (mret tt).
Proof.
  intros this buf _ Hu. exists this, []. rewrite put_nil. split; [reflexivity|exact Hu].
Qed.

Lemma accepted_write bs : Accepted (write bs).
Proof.
  intros this buf H Hu. exists this, bs. split; [apply write_accepted, H|exact Hu].
Qed.

Lemma accepted_writeOrdered bs : Accepted (writeOrdered bs).
Proof.
  intros this buf H Hu. eexists this, _. split; [apply write_accepted, H|exact Hu].
Qed.

Lemma accepted_bind (m : Js unit) (f : unit -> Js unit) :
  Accepted m -> (forall a, Accepted (f a)) -> Accepted (m ≫= f).
Proof.
  intros Hm Hf this buf H Hu. destruct (Hm this buf H Hu) as (this1 & bs & E & Hu1).
  rewrite (bind_normal _ _ _ _ _ _ _ E).
  destruct (Hf tt this1 (ByteBuffer.put bs buf) H Hu1) as (this2 & cs & E2 & Hu2).
  exists this2, (bs ++ cs). rewrite E2, put_put. split; [reflexivity|exact Hu2].
Qed.

Lemma accepted_getThis (f : Encoder -> Js unit) :
  (forall this, Accepted (f this)) -> Accepted (getThis ≫= f).
Proof. intros Hf this buf H Hu. rewrite bind_unfold. apply Hf; assumption. Qed.

Lemma accepted_hasOwnProperty key (f : option nat -> Js unit) :
  (forall found, Accepted (f found)) -> Accepted (hasOwnProperty key ≫= f).
Proof.
  intros Hf this buf H Hu. rewrite hasOwnProperty_bind.
  pose proof Hu as Hu'. unfold usable in Hu'. rewrite Hu'. apply Hf; assumption.
Qed.

Lemma accepted_try (body : Js unit) handler :
  Accepted body -> Accepted (tryCatch body handler).
Proof.
  intros Hbody this buf H Hu. destruct (Hbody this buf H Hu) as (this1 & bs & E & Hu1).
  exists this1, bs. unfold tryCatch. rewrite E. split; [reflexivity|exact Hu1].
Qed.

Lemma accepted_catch e (handler : error -> Js unit) :
  Accepted (handler e) -> Accepted (tryCatch (throw e) handler).
Proof. intros Hh this buf H Hu. apply Hh; assumption. Qed.

Lemma accepted_if (b : bool) (m1 m2 : Js unit) :
  Accepted m1 -> Accepted m2 -> Accepted (if b then m1 else m2).
Proof. destruct b; auto. Qed.

Lemma accepted_forEach {A} (f : A -> Js unit) xs :
  Forall (fun x => Accepted (f x)) xs -> Accepted (forEach f xs).
Proof.
  induction 1 as [|x xs Hx _ IH]; simpl.
  - apply accepted_ret.
  - apply accepted_bind; auto.
Qed.

Lemma accepted_addToDictionary key :
  key <> "hasOwnProperty"%string -> Accepted (addToDictionary key).
Proof.
  intros Hkey this buf _ Hu. eexists _, []. rewrite put_nil.
  split; [reflexivity|apply usable_withKey; assumption].
Qed.

Create HintDb accepted.
Hint Resolve accepted_ret accepted_write accepted_writeOrdered accepted_bind
  accepted_getThis accepted_hasOwnProperty accepted_try accepted_if
  accepted_addToDictionary : accepted.
Hint Unfold writeUint8 writeVarint32 writeVarint32ZigZag writeVarint64ZigZag
  writeFloat32 writeFloat64 writeVString append : accepted.

Ltac accepted := repeat (autounfold with accepted; intros; eauto 10 with accepted).

Lemma accepted_encodeString val : Accepted (encodeString tags val).
Proof.
  unfold encodeString. apply accepted_if; [accepted|].
  apply accepted_hasOwnProperty. intros [index|]; accepted.
Qed.

Lemma accepted_encodeNumber val : Accepted (encodeNumber tags exponentDigit val).
Proof. unfold encodeNumber. cbv zeta. accepted. Qed.

Lemma accepted_encodeKey excluded key :
  key <> "hasOwnProperty"%string -> Accepted (encodeKey tags excluded key).
Proof.
  intros Hkey. unfold encodeKey. apply accepted_hasOwnProperty. intros [index|]; [accepted|].
  apply accepted_getThis. intros this. destruct (progressive this && negb excluded); accepted.
Qed.

Lemma accepted_encodeObject recur hidden properties excluded :
  Forall
    (fun kv : string * value =>
       kv.1 <> "hasOwnProperty"%string /\ Accepted (recur kv.2 false))
    properties ->
  Accepted (encodeObject tags recur hidden properties excluded).
Proof.
  intros Hrecur. unfold encodeObject. cbv zeta.
  apply accepted_if; [accepted|].
  do 2 (apply accepted_bind; [accepted|intros _]).
  apply accepted_forEach. eapply Forall_impl; [exact Hrecur|].
  intros kv [Hk Hv]. simpl. apply accepted_if; [apply accepted_ret|].
  apply accepted_bind; [apply accepted_encodeKey, Hk|intros _; exact Hv].
Qed.

Lemma depth_elements elements frames :
  (depth (VArray elements) < S frames)%nat ->
  Forall (fun element => (depth element < frames)%nat) elements.
Proof.
  simpl. induction elements as [|x xs IH]; simpl; intros H; constructor.
  - lia.
  - apply IH. lia.
Qed.

Lemma depth_properties hidden properties frames :
  (depth (VObjectHidden hidden properties) < S frames)%nat ->
  Forall (fun kv : string * value => (depth kv.2 < frames)%nat) properties.
Proof.
  simpl. induction properties as [|x xs IH]; simpl; intros H; constructor.
  - lia.
  - apply IH. lia.
Qed.

(** With more frames than the value is deep, a buffer that accepts writes
    and a dictionary that answers lookups and is not given the key
    "hasOwnProperty", [_encodeValue] returns normally. *)
Lemma accepted_encodeValue frames : forall val excluded,
  (depth val < frames)%nat -> noHasOwnPropertyKey val = true ->
  Accepted (_encodeValue tags exponentDigit frames val excluded).
Proof.
  induction frames as [|frames IH]; intros val excluded Hdepth Hkeys; [lia|].
  pose proof accepted_encodeString. pose proof accepted_encodeNumber.
  destruct val; try (simpl; accepted; fail).
  - (* arrays *)
    simpl. apply accepted_if; [accepted|].
    do 2 (apply accepted_bind; [accepted|intros _]).
    apply accepted_forEach.
    pose proof (depth_elements _ _ Hdepth) as Hd.
    simpl in Hkeys. rewrite forallb_forall in Hkeys.
    apply Forall_forall. intros element He. apply IH.
    + rewrite Forall_forall in Hd. apply Hd, He.
    + apply Hkeys, list_elem_of_In, He.
  - (* objects *)
    simpl. apply accepted_catch, accepted_encodeObject.
    pose proof (depth_properties _ _ _ Hdepth) as Hd.
    pose proof (noHasOwnPropertyKey_properties _ _ Hkeys) as Hk.
    apply Forall_forall. intros kv Hkv.
    rewrite Forall_forall in Hd, Hk. destruct (Hk kv Hkv) as [Hname Hv].
    split; [exact Hname|]. apply IH; [apply Hd, Hkv|exact Hv].
Qed.

(** X19: with more stack frames than the value is deep, a dictionary that
    answers lookups and a value that has no key "hasOwnProperty" to take
    that away, [encode] on a buffer of its own returns normally, whatever
    else the value and the encoder are, and the buffer it leaves is flipped:
    offset 0, the bytes written ahead, big endian. *)
Lemma encode_returns frames json this :
  (depth json < frames)%nat ->
  usable this ->
  noHasOwnPropertyKey json = true ->
  exists this' bs,
    encodeTop frames json None this =
    (Normal tt, this',
     {| ByteBuffer.behind := []; ByteBuffer.ahead := bs;
        ByteBuffer.littleEndian := false; ByteBuffer.illegalOffset := false |}).
Proof.
  intros Hdepth Hu Hkeys.
  destruct (accepted_encodeValue frames json false Hdepth Hkeys this
              (ByteBuffer.LE ByteBuffer.create) eq_refl Hu) as (this' & bs & E & _).
  exists this', bs. unfold encode. rewrite E. reflexivity.
Qed.

(** *** Whole Numbers within 32 bits *)

Lemma int32_below1e21 v :
  isInteger v = true -> - 2 ^ 31 <= truncZ v < 2 ^ 31 -> magnitudeBelow1e21 v = true.
Proof.
  destruct v as [s|s| |s m e]; simpl; try congruence.
  unfold magnitudeFloor, below1e21. intros Hint Hrange.
  destruct (0 <=? e) eqn:He.
  - apply Z.ltb_lt. destruct s; lia.
  - apply Z.leb_gt in He. apply Z.eqb_eq in Hint. apply Z.ltb_lt.
    assert (Hpow : 0 < 2 ^ (- e)) by (apply Z.pow_pos_nonneg; lia).
    pose proof (Z.div_mod (Z.pos m) (2 ^ (- e)) ltac:(lia)) as Hdm.
    rewrite Hint, Z.add_0_r in Hdm.
    assert (Z.pos m / 2 ^ (- e) <= 2 ^ 31) by (destruct s; lia).
    nia.
Qed.

(** X12: a whole Number within the signed 32-bit range whose zigzag value
    is beyond [MAX] is written as the Integer tag and a varint that reads
    back as the Number. *)
Lemma int32_is_Integer_and_reads_back frames v this :
  isInteger v = true ->
  - 2 ^ 31 <= truncZ v < 2 ^ 31 ->
  T.MAX tags < ByteBuffer.zigZagEncode32 v ->
  encodeTop (S frames) (VNumber v) None this =
    (Normal tt, this,
     {| ByteBuffer.behind := [];
        ByteBuffer.ahead :=
          (T.INTEGER tags mod 256) :: ByteBuffer.varint32 (ByteBuffer.zigZagEncode32 v);
        ByteBuffer.littleEndian := false; ByteBuffer.illegalOffset := false |})
  /\ forall rest,
       ByteBuffer.readVarint32ZigZag
         (ByteBuffer.varint32 (ByteBuffer.zigZagEncode32 v) ++ rest) = Some (truncZ v).
Proof.
  intros Hint Hrange Hmax. split.
  - apply encode_single_write. intros buf. rewrite encodeValue_number.
    apply encodeNumber_large; [|exact Hmax].
    apply parseInt_integer; [exact Hint|apply int32_below1e21; assumption].
  - intros rest. unfold ByteBuffer.readVarint32ZigZag.
    rewrite readVarint32_varint32. simpl. f_equal.
    unfold ByteBuffer.zigZagEncode32, toInt32. rewrite (wrap32_small (truncZ v)) by exact Hrange.
    apply zigZag32_roundtrip, Hrange.
Qed.

(** *** Objects without their undefined properties *)

Lemma getProperty_absent key properties :
  key ∉ properties.*1 -> getProperty key properties = VUndefined.
Proof.
  induction properties as [|[k v] ps IH]; simpl; intros Hnot; [reflexivity|].
  destruct (String.eqb k key) eqn:E.
  - apply String.eqb_eq in E. subst. exfalso. apply Hnot. left.
  - apply IH. intros Hin. apply Hnot. right. exact Hin.
Qed.

Lemma present_keys key properties : key ∈ (present properties).*1 -> key ∈ properties.*1.
Proof.
  induction properties as [|[k v] ps IH]; simpl; [trivial|].
  unfold present in *. simpl. destruct (negb (isUndefined v)); simpl.
  - intros Hin. apply elem_of_cons in Hin as [->|Hin]; [left|right; auto].
  - intros Hin. right. auto.
Qed.

Lemma getProperty_present key properties :
  NoDup properties.*1 ->
  getProperty key (present properties) = getProperty key properties.
Proof.
  induction properties as [|[k v] ps IH]; simpl; intros Hnd; [reflexivity|].
  apply NoDup_cons in Hnd as [Hk Hnd]. unfold present in *. simpl.
  destruct (isUndefined v) eqn:Ev; simpl.
  - destruct (String.eqb k key) eqn:E; [|apply IH, Hnd].
    apply String.eqb_eq in E. subst k. destruct v; try discriminate.
    apply getProperty_absent. intros Hin. apply Hk, present_keys, Hin.
  - destruct (String.eqb k key); [reflexivity|apply IH, Hnd].
Qed.

Lemma present_present properties : present (present properties) = present properties.
Proof.
  unfold present. induction properties as [|[k v] ps IH]; simpl; [reflexivity|].
  destruct (isUndefined v) eqn:E; simpl; rewrite ?E; simpl; congruence.
Qed.

End Properties.

(** * Further properties *)

(** ** The dictionary, from the constructor on *)

Section Dictionary.
Variable tags : T.t.
Variable exponentDigit : number -> digit.
#[local] Abbreviation encodeValue := (_encodeValue tags exponentDigit).
#[local] Abbreviation encodeTop := (encode tags exponentDigit).

Lemma wellNumbered_withKey this key :
  WellNumbered this -> WellNumbered (withKey key this).
Proof.
  intros [Hbound Hinj]. split; simpl.
  - intros k i. rewrite assign_lookup. case_decide.
    + intros [= <-]. lia.
    + intros H'. apply Hbound in H'. lia.
  - intros k1 k2 i. rewrite !assign_lookup.
    repeat case_decide;
      repeat match goal with H : _ /\ _ |- _ => destruct H end; subst.
    + reflexivity.
    + intros [= <-] H2. apply Hbound in H2. lia.
    + intros H1 [= <-]. apply Hbound in H1. lia.
    + apply Hinj.
Qed.

Lemma wellNumbered_seeding seeds : forall this,
  WellNumbered this ->
  WellNumbered (fold_left (fun this seed => withKey seed this) seeds this).
Proof.
  induction seeds as [|seed seeds IH]; intros this H; simpl; [exact H|].
  apply IH, wellNumbered_withKey, H.
Qed.

Lemma wellNumbered_newEncoder seeds mode : WellNumbered (newEncoder seeds mode).
Proof.
  apply wellNumbered_seeding. split; simpl.
  - intros key i. rewrite lookup_empty. discriminate.
  - intros k1 k2 i. rewrite lookup_empty. discriminate.
Qed.

Lemma wellNumbered_kept : KeptByAdding WellNumbered.
Proof. intros this key H _ _. apply wellNumbered_withKey, H. Qed.

(** X2: whatever the seed list, repeated strings included, and after any
    calls of [encode]: every index in the dictionary is below [next], and no
    two keys have the same index. *)
Theorem dictionary_indices_are_distinct seeds mode calls :
  let this := session tags exponentDigit calls (newEncoder seeds mode) in
  (forall key i, dict this !! key = Some i -> (i < next this)%nat)
  /\ (forall k1 k2 i, dict this !! k1 = Some i -> dict this !! k2 = Some i -> k1 = k2).
Proof.
  apply (keeps_session tags exponentDigit WellNumbered wellNumbered_kept).
  apply wellNumbered_newEncoder.
Qed.

Lemma assign_subseteq key index (d : gmap string nat) :
  d !! key = None -> d ⊆ assign key index d.
Proof.
  intros Hnone. unfold assign. destruct (String.eqb key "__proto__"); [reflexivity|].
  apply insert_subseteq, Hnone.
Qed.

Lemma entries_kept this :
  KeptByAdding (fun t => dict this ⊆ dict t /\ (next this <= next t)%nat
                         /\ progressive t = progressive this).
Proof.
  intros t key (Hsub & Hnext & Hmode) _ Hnone. simpl. repeat split.
  - etransitivity; [exact Hsub|]. apply assign_subseteq, Hnone.
  - lia.
  - exact Hmode.
Qed.

(** X3: a call of [encode], returning or throwing, never removes or
    renumbers an entry of the dictionary, never lowers [next] and never
    changes the mode. *)
Theorem encode_keeps_dictionary_entries frames json buf this :
  let this' := (encode tags exponentDigit frames json buf this).1.2 in
  dict this ⊆ dict this'
  /\ (next this <= next this')%nat
  /\ progressive this' = progressive this.
Proof.
  apply (keeps_encode tags exponentDigit _ (entries_kept this)).
  repeat split; reflexivity.
Qed.

(** X4: a static encoder is never changed: not by [encode], whatever the
    value, and so not by any number of calls. *)
Theorem static_encoder_is_never_changed calls this :
  progressive this = false ->
  session tags exponentDigit calls this = this
  /\ forall frames val excluded buf,
       (_encodeValue tags exponentDigit frames val excluded this buf).1.2 = this.
Proof.
  intros Hstatic.
  assert (Hkept : KeptByAdding (fun t => t = this)).
  { intros t key -> Hmode _. congruence. }
  split.
  - apply (keeps_session tags exponentDigit _ Hkept). reflexivity.
  - intros frames val excluded buf.
    apply (keeps_encodeValue tags exponentDigit _ Hkept). reflexivity.
Qed.

(** The constructor's loop from any encoder: an entry of the result is a
    seed other than "__proto__" at its last position, counted from [next],
    or an earlier entry that no seed has replaced. *)
Lemma seeding_lookup seeds : forall this key i,
  let result := fold_left (fun this seed => withKey seed this) seeds this in
  next result = (next this + length seeds)%nat
  /\ (dict result !! key = Some i <->
      ((key = "__proto__"%string \/ key ∉ seeds) /\ dict this !! key = Some i)
      \/ (key <> "__proto__"%string
          /\ exists j, i = (next this + j)%nat /\ LastAt seeds key j)).
Proof.
  induction seeds as [|seed seeds IH]; intros this key i; simpl.
  - split; [lia|]. split.
    + intros H. left. split; [right; apply not_elem_of_nil|exact H].
    + intros [[_ H]|(_ & j & _ & H & _)]; [exact H|discriminate].
  - destruct (IH (withKey seed this) key i) as [Hnext Hiff].
    simpl in Hnext, Hiff. split; [lia|]. rewrite Hiff. clear IH Hiff Hnext.
    rewrite assign_lookup. split.
    + intros [[Hnot Hl]|(Hkey & j & -> & Hj & Hlast)].
      * case_decide as Hk.
        -- destruct Hk as [Hseed <-]. injection Hl as <-. right.
           split; [exact Hseed|]. exists 0%nat.
           split; [lia|split; [reflexivity|]].
           destruct Hnot as [->|Hnot]; [contradiction|].
           intros j Hj Hs. destruct j; [lia|]. simpl in Hs.
           apply Hnot. eapply list_elem_of_lookup_2, Hs.
        -- left. split; [|exact Hl].
           destruct Hnot as [->|Hnot]; [left; reflexivity|].
           destruct (decide (key = "__proto__"%string)) as [->|Hkey]; [left; reflexivity|].
           right. intros Hin. apply elem_of_cons in Hin as [->|Hin]; [|auto].
           apply Hk. split; [exact Hkey|reflexivity].
      * right. split; [exact Hkey|]. exists (S j). split; [lia|split; [exact Hj|]].
        intros j' Hj'. destruct j'; [lia|]. simpl. apply Hlast. lia.
    + intros [[Hnot Hl]|(Hkey & j & -> & Hj & Hlast)].
      * left. split.
        -- destruct Hnot as [->|Hnot]; [left; reflexivity|].
           right. intros Hin. apply Hnot. right. exact Hin.
        -- case_decide as Hk; [|exact Hl]. destruct Hk as [Hseed <-].
           destruct Hnot as [->|Hnot]; [contradiction|]. exfalso. apply Hnot. left.
      * destruct j as [|j].
        -- simpl in Hj. injection Hj as ->. left. split.
           ++ right. intros Hin. apply list_elem_of_lookup in Hin as [j Hj].
              apply (Hlast (S j)); [lia|exact Hj].
           ++ case_decide as Hk; [f_equal; lia|].
              exfalso. apply Hk. split; [exact Hkey|reflexivity].
        -- right. split; [exact Hkey|]. exists j. split; [lia|split; [exact Hj|]].
           intros j' Hj'. apply (Hlast (S j')). lia.
Qed.

Lemma seeding_mode seeds : forall this,
  progressive (fold_left (fun this seed => withKey seed this) seeds this)
  = progressive this.
Proof.
  induction seeds as [|seed seeds IH]; intros this; simpl; [reflexivity|].
  rewrite IH. reflexivity.
Qed.

(** X1: the constructor, for any seed list: [next] is the length of the
    list, the mode is the one given, and the dictionary holds exactly the
    seeds other than "__proto__", each with its last position in the list
    as index; the string "__proto__" uses up its positions and is not
    stored. *)
Theorem seeds_are_indexed_by_last_position seeds mode :
  let this := newEncoder seeds mode in
  next this = length seeds
  /\ progressive this = mode
  /\ forall key i,
       dict this !! key = Some i <->
       key <> "__proto__"%string
       /\ seeds !! i = Some key /\ forall j, (i < j)%nat -> seeds !! j <> Some key.
Proof.
  unfold newEncoder.
  pose proof (seeding_lookup seeds {| dict := ∅; next := 0; progressive := mode |}) as H.
  split; [|split].
  - apply (H ""%string 0%nat).
  - apply seeding_mode.
  - intros key i. destruct (H key i) as [_ Hiff].
    simpl in Hiff. rewrite Hiff, lookup_empty. unfold LastAt. split.
    + intros [[_ Hl]|(Hkey & j & -> & Hl)]; [discriminate|]. split; [exact Hkey|exact Hl].
    + intros [Hkey Hl]. right. split; [exact Hkey|]. exists i. split; [reflexivity|exact Hl].
Qed.

(** X7: a progressive encoder whose dictionary answers lookups, meeting a
    key it does not have, outside exclusion, gives it the index [next],
    writes the StringAdd tag and the string, and counts on; from then on,
    whatever is encoded in between and as long as the dictionary answers
    lookups, a key other than "__proto__" is written as the StringGet tag and
    that index. *)
Theorem new_key_is_added_then_looked_up key this buf :
  progressive this = true ->
  usable this ->
  dict this !! key = None ->
  ByteBuffer.illegalOffset buf = false ->
  encodeKey tags false key this buf =
    (Normal tt, withKey key this,
     ByteBuffer.put ((T.STRING_ADD tags mod 256) :: ByteBuffer.vstring key) buf)
  /\ (key <> "__proto__"%string ->
      forall calls excluded buf',
        let later := session tags exponentDigit calls (withKey key this) in
        usable later ->
        encodeKey tags excluded key later buf' =
        write ((T.STRING_GET tags mod 256) :: ByteBuffer.varint32 (Z.of_nat (next this)))
          later buf').
Proof.
  intros Hmode Hu Hnone Hacc. split.
  - rewrite encodeKey_cases, Hu, Hnone, Hmode. simpl.
    rewrite bind_unfold. unfold addToDictionary. cbv iota.
    apply write_accepted, Hacc.
  - intros Hkey calls excluded buf' later Hlater. apply encodeKey_known; [exact Hlater|].
    destruct (keeps_session tags exponentDigit _ (entries_kept (withKey key this)) calls
                (withKey key this)) as (Hsub & _); [repeat split; reflexivity|].
    eapply lookup_weaken; [|exact Hsub]. simpl.
    rewrite assign_lookup. case_decide as Hk; [reflexivity|].
    exfalso. apply Hk. split; [exact Hkey|reflexivity].
Qed.

(** X20: once "hasOwnProperty" is a key of the dictionary, as a seed or
    as a key that a progressive encoder has added, it stays one through
    every call, and every lookup throws a TypeError and leaves encoder and
    buffer as they are: for every key of an object, and for every string
    but the empty one. *)
Theorem hasOwnProperty_key_disables_lookups calls this index :
  dict this !! "hasOwnProperty"%string = Some index ->
  let later := session tags exponentDigit calls this in
  dict later !! "hasOwnProperty"%string = Some index
  /\ (forall excluded key buf,
        encodeKey tags excluded key later buf = (Throw TypeError_NotAFunction, later, buf))
  /\ (forall frames s excluded buf,
        s <> ""%string ->
        _encodeValue tags exponentDigit (S frames) (VString s) excluded later buf
        = (Throw TypeError_NotAFunction, later, buf)).
Proof.
  intros Hshadow later.
  assert (Hlater : dict later !! "hasOwnProperty"%string = Some index).
  { destruct (keeps_session tags exponentDigit _ (entries_kept this) calls this) as (Hsub & _);
      [repeat split; reflexivity|].
    eapply lookup_weaken; [exact Hshadow|exact Hsub]. }
  split; [exact Hlater|split].
  - intros excluded key buf. rewrite encodeKey_cases, Hlater. reflexivity.
  - intros frames s excluded buf Hs. simpl. unfold encodeString.
    destruct s as [|c s]; [contradiction|]. simpl.
    rewrite hasOwnProperty_bind, Hlater. reflexivity.
Qed.

Lemma proto_kept : KeptByAdding (fun t => dict t !! "__proto__"%string = None).
Proof.
  intros t key H _ _. simpl. rewrite assign_lookup.
  case_decide as Hk; [|exact H]. destruct Hk as [Hkey Hk]. contradiction.
Qed.

Lemma proto_seeding seeds : forall this,
  dict this !! "__proto__"%string = None ->
  dict (fold_left (fun this seed => withKey seed this) seeds this) !! "__proto__"%string
  = None.
Proof.
  induction seeds as [|seed seeds IH]; intros this H; simpl; [exact H|].
  apply IH. simpl. rewrite assign_lookup.
  case_decide as Hk; [|exact H]. destruct Hk as [Hkey Hk]. contradiction.
Qed.

(** X21: the string "__proto__" never becomes a key of the dictionary,
    whatever the seeds and the calls.  A progressive encoder that meets it
    as a key, outside exclusion, writes the StringAdd tag and the string
    and uses up an index, and the dictionary is as before: so it does each
    time. *)
Theorem proto_key_is_never_stored seeds mode calls :
  let this := session tags exponentDigit calls (newEncoder seeds mode) in
  dict this !! "__proto__"%string = None
  /\ forall buf,
       progressive this = true -> usable this ->
       ByteBuffer.illegalOffset buf = false ->
       encodeKey tags false "__proto__" this buf =
         (Normal tt, withKey "__proto__" this,
          ByteBuffer.put ((T.STRING_ADD tags mod 256) :: ByteBuffer.vstring "__proto__") buf)
       /\ dict (withKey "__proto__" this) = dict this
       /\ next (withKey "__proto__" this) = S (next this).
Proof.
  intros this.
  assert (Hproto : dict this !! "__proto__"%string = None).
  { apply (keeps_session tags exponentDigit _ proto_kept).
    apply proto_seeding, lookup_empty. }
  split; [exact Hproto|]. intros buf Hmode Hu Hacc. split; [|split; reflexivity].
  rewrite encodeKey_cases, Hu, Hproto, Hmode. simpl.
  rewrite bind_unfold. unfold addToDictionary. cbv iota.
  apply write_accepted, Hacc.
Qed.
End Dictionary.

(** ** What reaches the dictionary, and what is written for values
       without keys *)

Section Keys.
Variable tags : T.t.
Variable exponentDigit : number -> digit.
#[local] Abbreviation encodeValue := (_encodeValue tags exponentDigit).
#[local] Abbreviation encodeTop := (encode tags exponentDigit).

Lemma bind_ret_r (m : Js unit) this buf : (m;; mret tt) this buf = m this buf.
Proof.
  rewrite bind_unfold. destruct (m this buf) as [[[[]|e] this'] buf']; reflexivity.
Qed.

Lemma existsb_present properties :
  existsb (fun kv : string * value => negb (isUndefined kv.2)) properties = false ->
  present properties = [].
Proof.
  unfold present. induction properties as [|[k v] ps IH]; simpl; [reflexivity|].
  destruct (isUndefined v); simpl; [exact IH|discriminate].
Qed.

(** An object none of whose properties is defined is written as the
    EmptyObject tag. *)
Lemma encodeValue_object_absent frames hidden properties excluded this buf :
  present properties = [] ->
  encodeValue (S frames) (VObjectHidden hidden properties) excluded this buf
  = writeUint8 (T.EOBJECT tags) this buf.
Proof.
  intros H. rewrite encodeValue_object. unfold encodeObject.
  rewrite countDefined_present, H. reflexivity.
Qed.

Lemma countDefined_wrapper bs : countDefined (wrapperProperties bs) = 7%nat.
Proof. destruct bs; reflexivity. Qed.

(** The binary branch never touches the encoder: either its writes are
    accepted, or the first is rejected and so is the handler's. *)
Lemma encodeValue_binary_same frames bs excluded this buf :
  (encodeValue (S frames) (VBinary bs) excluded this buf).1.2 = this.
Proof.
  simpl. unfold tryCatch, writeUint8, writeVarint32, append.
  destruct (ByteBuffer.illegalOffset buf) eqn:E.
  - rewrite (bind_unfold (write _)), write_rejected by exact E.
    unfold encodeObject. rewrite countDefined_wrapper. cbv zeta.
    change (7 =? 0)%nat with false. cbv iota.
    unfold writeUint8. rewrite bind_unfold, write_rejected by exact E. reflexivity.
  - rewrite (bind_unfold (write _)), write_accepted by exact E.
    rewrite (bind_unfold (write _)), write_accepted by exact E.
    rewrite write_accepted by exact E. reflexivity.
Qed.

Lemma bind_same {A B} (m : Js A) (f : A -> Js B) :
  (forall this buf, (m this buf).1.2 = this) ->
  (forall a this buf, (f a this buf).1.2 = this) ->
  forall this buf, ((m ≫= f) this buf).1.2 = this.
Proof.
  intros Hm Hf this buf. rewrite bind_unfold. specialize (Hm this buf).
  destruct (m this buf) as [[[a|e] this1] buf1]; simpl in Hm; subst; [apply Hf|reflexivity].
Qed.

Lemma forEach_same {A} (f : A -> Js unit) xs :
  Forall (fun x => forall this buf, (f x this buf).1.2 = this) xs ->
  forall this buf, (forEach f xs this buf).1.2 = this.
Proof.
  induction 1 as [|x xs Hx _ IH]; intros this buf; simpl; [reflexivity|].
  rewrite bind_unfold. specialize (Hx this buf).
  destruct (f x this buf) as [[[[]|e] this1] buf1]; simpl in Hx; subst; [apply IH|reflexivity].
Qed.

Lemma encodeString_same val this buf : (encodeString tags val this buf).1.2 = this.
Proof.
  apply (keeps_encodeString tags (fun t => t = this)); reflexivity.
Qed.

Lemma encodeNumber_same val this buf :
  (encodeNumber tags exponentDigit val this buf).1.2 = this.
Proof.
  apply (keeps_encodeNumber tags exponentDigit (fun t => t = this)); reflexivity.
Qed.

(** X6: a value that holds no object with a defined property (strings,
    numbers, binary data, arrays of these, objects with nothing defined)
    leaves the encoder as it is, in progressive mode too: only the key of an
    object ever enters the dictionary. *)
Theorem only_object_keys_enter_dictionary frames : forall val excluded this buf,
  hasKeys val = false ->
  (encodeValue frames val excluded this buf).1.2 = this.
Proof.
  induction frames as [|frames IH]; intros val excluded this buf Hkeys; [reflexivity|].
  destruct val; try reflexivity; try (simpl; apply write_same).
  - apply encodeNumber_same.
  - apply encodeString_same.
  - apply encodeString_same.
  - simpl. apply bind_same; [apply write_same|intros _; apply write_same].
  - apply encodeValue_binary_same.
  - rewrite encodeValue_array.
    destruct (length elements =? 0)%nat; [apply write_same|].
    apply bind_same; [apply write_same|intros _].
    apply bind_same; [apply write_same|intros _].
    apply forEach_same. simpl in Hkeys.
    apply Forall_forall. intros x Hx this' buf'. apply IH.
    destruct (hasKeys x) eqn:Ex; [|reflexivity].
    assert (existsb hasKeys elements = true); [|congruence].
    apply existsb_exists. exists x. split; [apply list_elem_of_In, Hx|exact Ex].
  - rewrite encodeValue_object_absent by (apply existsb_present, Hkeys).
    apply write_same.
Qed.


(** X10: an array of values of a kind the switch has no case for
    (symbols, bigints) is written as the Array tag and its length and
    nothing else: the count announces elements that are not there. *)
Theorem unhandled_elements_write_nothing frames elements excluded this buf :
  elements <> [] ->
  Forall (fun element => element = VSymbol \/ exists n, element = VBigInt n) elements ->
  encodeValue (S (S frames)) (VArray elements) excluded this buf
  = write ((T.ARRAY tags mod 256) :: ByteBuffer.varint32 (Z.of_nat (length elements))) this buf.
Proof.
  intros Hne Hall. rewrite encodeValue_array.
  destruct elements as [|x xs]; [congruence|]. change (length (x :: xs) =? 0)%nat with false.
  cbv iota.
  transitivity ((write [T.ARRAY tags mod 256];;
                 write (ByteBuffer.varint32 (Z.of_nat (length (x :: xs))))) this buf);
    [|apply (write_write [_])].
  apply bind_congr. intros [] this1 buf1 _.
  assert (Hloop : forall ys this2 buf2,
            Forall (fun element => element = VSymbol \/ exists n, element = VBigInt n) ys ->
            forEach (fun element => encodeValue (S frames) element false) ys this2 buf2
            = (Normal tt, this2, buf2)).
  { induction ys as [|y ys IHys]; intros this2 buf2 Hys; [reflexivity|].
    apply Forall_cons in Hys as [[->|[n ->]] Hys]; simpl; apply IHys, Hys. }
  rewrite bind_unfold. unfold writeVarint32.
  destruct (write _ this1 buf1) as [[[[]|e] this2] buf2]; [|reflexivity].
  apply Hloop, Hall.
Qed.

(** In static mode the exclusion flag makes no difference to a key. *)
Lemma encodeKey_static excluded excluded' key this buf :
  progressive this = false ->
  encodeKey tags excluded key this buf = encodeKey tags excluded' key this buf.
Proof.
  intros H. rewrite !encodeKey_cases, H. reflexivity.
Qed.

Lemma static_kept this : progressive this = false -> KeptByAdding (fun t => t = this).
Proof. intros H t key -> Hmode _. congruence. Qed.

Lemma encodeObject_static recur hidden properties excluded excluded' this buf :
  progressive this = false ->
  (forall v e, Keeps (fun t => t = this) (recur v e)) ->
  encodeObject tags recur hidden properties excluded this buf
  = encodeObject tags recur hidden properties excluded' this buf.
Proof.
  intros Hstatic Hrecur. unfold encodeObject. cbv zeta.
  destruct (countDefined properties =? 0)%nat; [reflexivity|].
  apply bind_congr. intros [] this1 buf1 H1.
  apply (f_equal (fun r => r.1.2)) in H1. unfold writeUint8 in H1.
  rewrite write_same in H1. simpl in H1. subst this1.
  apply bind_congr. intros [] this2 buf2 H2.
  apply (f_equal (fun r => r.1.2)) in H2. unfold writeVarint32 in H2.
  rewrite write_same in H2. simpl in H2. subst this2.
  generalize (if negb excluded then truthy (readSentinel hidden properties) else excluded).
  generalize (if negb excluded' then truthy (readSentinel hidden properties) else excluded').
  intros b' b. revert buf2.
  induction properties as [|[k v] ps IH]; intros buf2; [reflexivity|].
  simpl. destruct (isUndefined v).
  - rewrite !bind_unfold. simpl. apply IH.
  - rewrite !(bind_assoc (encodeKey _ _ _)).
    rewrite !(bind_unfold (encodeKey _ _ _)), (encodeKey_static b b') by exact Hstatic.
    pose proof (keeps_encodeKey tags (fun t => t = this) (static_kept this Hstatic) b' k
                  this buf2 eq_refl) as Ek.
    destruct (encodeKey tags b' k this buf2) as [[[[]|e] this3] buf3]; simpl in Ek; subst;
      [|reflexivity].
    rewrite !bind_unfold.
    pose proof (Hrecur v false this buf3 eq_refl) as Er.
    destruct (recur v false this buf3) as [[[[]|e] this4] buf4]; simpl in Er; subst;
      [apply IH|reflexivity].
Qed.

(** X5: on a static encoder neither the [excluded] argument nor, with it,
    the sentinel property changes what is written or returned. *)
Theorem static_encoder_ignores_exclusion frames val excluded excluded' this buf :
  progressive this = false ->
  _encodeValue tags exponentDigit frames val excluded this buf
  = _encodeValue tags exponentDigit frames val excluded' this buf.
Proof.
  intros Hstatic. destruct frames as [|frames]; [reflexivity|].
  assert (Hrecur : forall v e, Keeps (fun t => t = this) (encodeValue frames v e))
    by (intros v e; apply keeps_encodeValue, static_kept, Hstatic).
  destruct val; try reflexivity.
  - simpl. unfold tryCatch.
    destruct ((writeUint8 (T.BINARY tags);; writeVarint32 (Z.of_nat (length bytes));;
               append bytes) this buf) as [[[[]|e] this1] buf1] eqn:E; [reflexivity|].
    assert (this1 = this).
    { pose proof (keeps_bind (fun t => t = this) (writeUint8 (T.BINARY tags))
                    (fun _ => writeVarint32 (Z.of_nat (length bytes));; append bytes)
                    (keeps_write _ _)
                    (fun _ => keeps_bind _ _ _ (keeps_write _ _) (fun _ => keeps_write _ _))
                    this buf eq_refl) as Hk.
      rewrite E in Hk. exact Hk. }
    subst this1. apply encodeObject_static; assumption.
  - simpl. unfold tryCatch, throw. apply encodeObject_static; assumption.
Qed.
End Keys.

(** ** Whole Numbers *)

Section WholeNumbers.
Variable tags : T.t.
Variable exponentDigit : number -> digit.
#[local] Abbreviation encodeValue := (_encodeValue tags exponentDigit).
#[local] Abbreviation encodeTop := (encode tags exponentDigit).

Lemma zigzag_closed_form n :
  - 2 ^ 31 <= n < 2 ^ 31 ->
  toUint32 (Z.lxor (wrap32 (Z.shiftl n 1)) (Z.shiftr n 31))
  = if n <? 0 then - 2 * n - 1 else 2 * n.
Proof.
  intros Hn. rewrite (Z.shiftl_mul_pow2 n 1), (Z.shiftr_div_pow2 n 31) by lia.
  destruct (n <? 0) eqn:E; [apply Z.ltb_lt in E|apply Z.ltb_ge in E].
  - replace (n / 2 ^ 31) with (-1) by (Z.div_mod_to_equations; lia).
    rewrite Z.lxor_m1_r. unfold Z.lnot. euclid.
  - replace (n / 2 ^ 31) with 0 by (Z.div_mod_to_equations; lia).
    rewrite Z.lxor_0_r. euclid.
Qed.

Lemma zigZagEncode32_int32 v :
  - 2 ^ 31 <= truncZ v < 2 ^ 31 ->
  ByteBuffer.zigZagEncode32 v
  = if truncZ v <? 0 then - 2 * truncZ v - 1 else 2 * truncZ v.
Proof.
  intros H. unfold ByteBuffer.zigZagEncode32, toInt32.
  rewrite (wrap32_small (truncZ v)) by exact H. apply zigzag_closed_form, H.
Qed.

(** X11: which whole Numbers take one byte: within the signed 32-bit range
    exactly those from [-((MAX+1)/2)] to [MAX/2]; the byte is [2v] for [v >= 0]
    and [-2v-1] for [v < 0], and zigZagDecode32 gives [v] back from it. *)
Theorem one_byte_integers frames v this :
  isInteger v = true ->
  - 2 ^ 31 <= truncZ v < 2 ^ 31 ->
  0 <= T.MAX tags <= 255 ->
  let byte := if truncZ v <? 0 then - 2 * truncZ v - 1 else 2 * truncZ v in
  (ByteBuffer.zigZagEncode32 v <= T.MAX tags
     <-> - ((T.MAX tags + 1) / 2) <= truncZ v <= T.MAX tags / 2)
  /\ (- ((T.MAX tags + 1) / 2) <= truncZ v <= T.MAX tags / 2 ->
      encode tags exponentDigit (S frames) (VNumber v) None this =
        (Normal tt, this,
         {| ByteBuffer.behind := []; ByteBuffer.ahead := [byte];
            ByteBuffer.littleEndian := false; ByteBuffer.illegalOffset := false |})
      /\ ByteBuffer.zigZagDecode32 byte = truncZ v).
Proof.
  intros Hint Hrange Hmax byte.
  pose proof (zigZagEncode32_int32 v Hrange) as Hzz. fold byte in Hzz.
  assert (Hiff : ByteBuffer.zigZagEncode32 v <= T.MAX tags
                 <-> - ((T.MAX tags + 1) / 2) <= truncZ v <= T.MAX tags / 2).
  { rewrite Hzz. unfold byte. destruct (truncZ v <? 0) eqn:E;
      [apply Z.ltb_lt in E|apply Z.ltb_ge in E]; Z.div_mod_to_equations; lia. }
  split; [exact Hiff|]. intros Hsmall. apply Hiff in Hsmall. split.
  - rewrite <- Hzz. apply encode_single_write. intros buf. rewrite encodeValue_number.
    rewrite encodeNumber_small;
      [|apply parseInt_integer; [exact Hint|apply int32_below1e21; assumption]|exact Hsmall].
    rewrite Z.mod_small by (pose proof (zigZagEncode32_range v); lia). reflexivity.
  - rewrite <- Hzz. pose proof (zigZagEncode32_range v) as Hr.
    unfold ByteBuffer.zigZagEncode32, toInt32 in Hr, Hsmall |- *.
    rewrite (wrap32_small (truncZ v)) in Hr, Hsmall |- * by exact Hrange.
    rewrite <- (wrap32_small (toUint32 _)) by lia.
    apply zigZag32_roundtrip, Hrange.
Qed.

(** From [10^21] on a whole Number is printed in exponent notation, and
    [parseInt] returns its leading digit, which is not the Number. *)
Lemma parseInt_from1e21 v :
  isInteger v = true -> magnitudeBelow1e21 v = false ->
  strictEquals v (parseInt exponentDigit v) = false.
Proof.
  destruct v as [s|s| |s m e]; simpl; try congruence.
  intros _ Hbelow. unfold positional. rewrite Hbelow, andb_false_r.
  simpl. apply andb_false_intro2. unfold sameMagnitude. apply Z.eqb_neq.
  unfold below1e21 in Hbelow.
  assert (Hd : 0 < Z.pos (digitValue (exponentDigit (S754_finite s m e))) <= 9)
    by (destruct (exponentDigit _); simpl; lia).
  destruct (0 <=? e) eqn:He; [apply Z.leb_le in He|apply Z.leb_gt in He];
    apply Z.ltb_ge in Hbelow.
  - rewrite Z.min_r by lia. rewrite Z.sub_0_r, Z.sub_diag. lia.
  - rewrite Z.min_l by lia. rewrite Z.sub_diag, Z.sub_0_l.
    assert (0 < 2 ^ (- e)) by (apply Z.pow_pos_nonneg; lia). nia.
Qed.

(** X14: a whole Number of magnitude [10^21] or more is not written as an
    integer but like a fraction: as the Float tag and four bytes when single
    precision holds it, as the Double tag and eight bytes otherwise. *)
Theorem integer_from_1e21_is_written_as_float frames v this :
  isInteger v = true ->
  magnitudeBelow1e21 v = false ->
  encodeTop (S frames) (VNumber v) None this =
  (Normal tt, this,
   {| ByteBuffer.behind := [];
      ByteBuffer.ahead :=
        if strictEquals v (fround v)
        then (T.FLOAT tags mod 256) :: bytesLE 4 (bits32 v)
        else (T.DOUBLE tags mod 256) :: bytesLE 8 (bits64 v);
      ByteBuffer.littleEndian := false; ByteBuffer.illegalOffset := false |}).
Proof.
  intros Hint Hbig. apply encode_single_write. intros buf. rewrite encodeValue_number.
  rewrite encodeNumber_fraction by (apply parseInt_from1e21; assumption).
  reflexivity.
Qed.

Lemma wrap32_mod z w : z mod 2 ^ 32 = w mod 2 ^ 32 -> wrap32 z = wrap32 w.
Proof. intros H. euclid. Qed.

Lemma wrap32_range z : - 2 ^ 31 <= wrap32 z < 2 ^ 31.
Proof. euclid. Qed.

Lemma readVarint32ZigZag_zigZagEncode32 v rest :
  ByteBuffer.readVarint32ZigZag (ByteBuffer.varint32 (ByteBuffer.zigZagEncode32 v) ++ rest)
  = Some (toInt32 v).
Proof.
  unfold ByteBuffer.readVarint32ZigZag. rewrite readVarint32_varint32. simpl. f_equal.
  unfold ByteBuffer.zigZagEncode32. apply zigZag32_roundtrip, wrap32_range.
Qed.

(** X13: a whole Number below [10^21] is written by its low 32 bits alone:
    two such Numbers that differ by a multiple of [2^32] are written alike,
    and the varint written after the Integer tag reads back as the Number
    reduced to the signed 32-bit range. *)
Theorem integers_are_written_by_their_low_32_bits frames v w excluded this buf :
  isInteger v = true -> magnitudeBelow1e21 v = true ->
  isInteger w = true -> magnitudeBelow1e21 w = true ->
  truncZ v mod 2 ^ 32 = truncZ w mod 2 ^ 32 ->
  encodeValue (S frames) (VNumber v) excluded this buf
  = encodeValue (S frames) (VNumber w) excluded this buf
  /\ forall rest,
       ByteBuffer.readVarint32ZigZag
         (ByteBuffer.varint32 (ByteBuffer.zigZagEncode32 v) ++ rest)
       = Some (wrap32 (truncZ v)).
Proof.
  intros Hv Hbv Hw Hbw Hmod. split; [|intros rest; apply readVarint32ZigZag_zigZagEncode32].
  rewrite !encodeValue_number. unfold encodeNumber, writeVarint32ZigZag.
  rewrite (parseInt_integer _ v Hv Hbv), (parseInt_integer _ w Hw Hbw).
  assert (Hzz : ByteBuffer.zigZagEncode32 v = ByteBuffer.zigZagEncode32 w).
  { unfold ByteBuffer.zigZagEncode32, toInt32. rewrite (wrap32_mod _ _ Hmod). reflexivity. }
  cbv zeta. rewrite Hzz. reflexivity.
Qed.
End WholeNumbers.

(** ** The target buffer *)

Section Target.
Variable tags : T.t.
Variable exponentDigit : number -> digit.
#[local] Abbreviation encodeValue := (_encodeValue tags exponentDigit).
#[local] Abbreviation encodeTop := (encode tags exponentDigit).

Lemma appends_ret {A} (a : A) : Appends (mret a : Js A).
Proof.
  intros this le. exists (Normal a), this, []. intros buf _ _.
  rewrite put_nil. reflexivity.
Qed.

Lemma appends_throw {A} e : Appends (throw e : Js A).
Proof.
  intros this le. exists (Throw e), this, []. intros buf _ _.
  rewrite put_nil. reflexivity.
Qed.

Lemma appends_write bs : Appends (write bs).
Proof.
  intros this le. exists (Normal tt), this, bs. intros buf H _.
  apply write_accepted, H.
Qed.

Lemma appends_writeOrdered bs : Appends (writeOrdered bs).
Proof.
  intros this le. exists (Normal tt), this, (bs le). intros buf H <-.
  apply write_accepted, H.
Qed.

Lemma appends_bind {A B} (m : Js A) (f : A -> Js B) :
  Appends m -> (forall a, Appends (f a)) -> Appends (m ≫= f).
Proof.
  intros Hm Hf this le. destruct (Hm this le) as (o1 & this1 & bs1 & H1).
  destruct o1 as [a|e].
  - destruct (Hf a this1 le) as (o2 & this2 & bs2 & H2).
    exists o2, this2, (bs1 ++ bs2). intros buf Hacc Hle.
    rewrite bind_unfold, (H1 buf Hacc Hle), H2, put_put by assumption. reflexivity.
  - exists (Throw e), this1, bs1. intros buf Hacc Hle.
    rewrite bind_unfold, (H1 buf Hacc Hle). reflexivity.
Qed.

Lemma appends_tryCatch {A} (body : Js A) handler :
  Appends body -> (forall e, Appends (handler e)) -> Appends (tryCatch body handler).
Proof.
  intros Hbody Hhandler this le. destruct (Hbody this le) as (o1 & this1 & bs1 & H1).
  destruct o1 as [a|e].
  - exists (Normal a), this1, bs1. intros buf Hacc Hle.
    unfold tryCatch. rewrite (H1 buf Hacc Hle). reflexivity.
  - destruct (Hhandler e this1 le) as (o2 & this2 & bs2 & H2).
    exists o2, this2, (bs1 ++ bs2). intros buf Hacc Hle.
    unfold tryCatch. rewrite (H1 buf Hacc Hle), H2, put_put by assumption. reflexivity.
Qed.

Lemma appends_if {A} (b : bool) (m1 m2 : Js A) :
  Appends m1 -> Appends m2 -> Appends (if b then m1 else m2).
Proof. destruct b; auto. Qed.

Lemma appends_forEach {A} (f : A -> Js unit) xs :
  (forall x, Appends (f x)) -> Appends (forEach f xs).
Proof.
  intros Hf. induction xs as [|x xs IH]; simpl.
  - apply appends_ret.
  - apply appends_bind; auto.
Qed.

Lemma appends_getThis {B} (f : Encoder -> Js B) :
  (forall this, Appends (f this)) -> Appends (getThis ≫= f).
Proof.
  intros Hf this le. destruct (Hf this this le) as (o & this' & bs & H).
  exists o, this', bs. intros buf Hacc Hle. rewrite bind_unfold. apply H; assumption.
Qed.

Lemma appends_hasOwnProperty {B} key (f : option nat -> Js B) :
  (forall found, Appends (f found)) -> Appends (hasOwnProperty key ≫= f).
Proof.
  intros Hf this le.
  destruct (dict this !! "hasOwnProperty"%string) as [i|] eqn:E.
  - exists (Throw TypeError_NotAFunction), this, []. intros buf _ _.
    rewrite hasOwnProperty_bind, E, put_nil. reflexivity.
  - destruct (Hf (dict this !! key) this le) as (o & this' & bs & H).
    exists o, this', bs. intros buf Hacc Hle.
    rewrite hasOwnProperty_bind, E. apply H; assumption.
Qed.

Lemma appends_addToDictionary key : Appends (addToDictionary key).
Proof.
  intros this le. eexists (Normal tt), _, []. intros buf _ _.
  rewrite put_nil. reflexivity.
Qed.

Create HintDb appends.
Hint Resolve appends_ret appends_throw appends_write appends_writeOrdered appends_bind
  appends_tryCatch appends_if appends_forEach appends_getThis appends_addToDictionary
  : appends.
Hint Unfold writeUint8 writeVarint32 writeVarint32ZigZag writeVarint64ZigZag
  writeFloat32 writeFloat64 writeVString append : appends.

Ltac appends := repeat (autounfold with appends; intros; eauto 10 with appends).

Lemma appends_encodeString val : Appends (encodeString tags val).
Proof.
  unfold encodeString. apply appends_if; [appends|].
  apply appends_hasOwnProperty. intros [index|]; appends.
Qed.

Lemma appends_encodeNumber val : Appends (encodeNumber tags exponentDigit val).
Proof. unfold encodeNumber. cbv zeta. appends. Qed.

Lemma appends_encodeKey excluded key : Appends (encodeKey tags excluded key).
Proof.
  unfold encodeKey. apply appends_hasOwnProperty. intros [index|]; [appends|].
  apply appends_getThis. intros this. destruct (progressive this && negb excluded); appends.
Qed.

Lemma appends_encodeObject recur hidden properties excluded :
  (forall v e, Appends (recur v e)) ->
  Appends (encodeObject tags recur hidden properties excluded).
Proof.
  intros Hrecur. unfold encodeObject. cbv zeta.
  pose proof appends_encodeKey. appends.
Qed.

Lemma appends_encodeValue frames : forall val excluded,
  Appends (encodeValue frames val excluded).
Proof.
  induction frames as [|frames IH]; intros val excluded.
  - apply appends_throw.
  - pose proof appends_encodeString. pose proof appends_encodeNumber.
    pose proof appends_encodeObject.
    destruct val; simpl; appends.
Qed.

Lemma restore_put le bs buf :
  ByteBuffer.setLittleEndian le (ByteBuffer.put bs (ByteBuffer.LE buf))
  = ByteBuffer.put bs (ByteBuffer.setLittleEndian le buf).
Proof. reflexivity. Qed.

Lemma setLittleEndian_same buf :
  ByteBuffer.setLittleEndian (ByteBuffer.littleEndian buf) buf = buf.
Proof. destruct buf. reflexivity. Qed.

(** X16: what [encode] writes, how it ends and what it does to the encoder
    do not depend on the target: a buffer handed in (accepting writes,
    whatever it holds and whatever its byte order) gets the same bytes
    appended at its offset and is neither flipped nor otherwise changed; a
    buffer of the call's own holds just these bytes and is flipped when the
    call returns. *)
Theorem encode_appends_the_same_bytes frames json this :
  exists outcome this' bs,
    (forall buf,
       ByteBuffer.illegalOffset buf = false ->
       encode tags exponentDigit frames json (Some buf) this
       = (outcome, this', ByteBuffer.put bs buf))
    /\ encode tags exponentDigit frames json None this
       = (outcome, this',
          match outcome with
          | Normal _ => ByteBuffer.flip (ByteBuffer.put bs ByteBuffer.create)
          | Throw _ => ByteBuffer.put bs ByteBuffer.create
          end).
Proof.
  destruct (appends_encodeValue frames json false this true) as (o & this' & bs & H).
  exists o, this', bs. split.
  - intros buf Hacc. unfold encode.
    rewrite (H (ByteBuffer.LE buf)) by (exact Hacc || reflexivity).
    rewrite restore_put, setLittleEndian_same. destruct o as [[]|e]; reflexivity.
  - unfold encode. rewrite (H (ByteBuffer.LE ByteBuffer.create)) by reflexivity.
    destruct o as [[]|e]; reflexivity.
Qed.

(** X15: binary data is written as the Binary tag, the number of bytes as
    a varint and the bytes, on every buffer and in every mode; the handler
    that takes the wrapper for a plain object never gets to write, so the
    wrapper's properties never reach the output or the dictionary. *)
Theorem binary_is_tag_length_and_bytes frames bs excluded this buf :
  encodeValue (S frames) (VBinary bs) excluded this buf
  = write ((T.BINARY tags mod 256)
             :: ByteBuffer.varint32 (Z.of_nat (length bs)) ++ bs) this buf
  /\ (encodeValue (S frames) (VBinary bs) excluded this buf).1.2 = this.
Proof.
  assert (E : encodeValue (S frames) (VBinary bs) excluded this buf
              = write ((T.BINARY tags mod 256)
                         :: ByteBuffer.varint32 (Z.of_nat (length bs)) ++ bs) this buf).
  { simpl. unfold tryCatch, writeUint8, writeVarint32, append.
    destruct (ByteBuffer.illegalOffset buf) eqn:E.
    - (* the first write throws; the handler's first write throws too *)
      rewrite (bind_unfold (write _)), !write_rejected by exact E.
      unfold encodeObject. rewrite countDefined_wrapper. cbv zeta.
      change (7 =? 0)%nat with false. cbv iota.
      unfold writeUint8. rewrite bind_unfold, write_rejected by exact E. reflexivity.
    - rewrite (bind_unfold (write _)), write_accepted by exact E.
      rewrite (bind_unfold (write _)), write_accepted by exact E.
      rewrite !write_accepted by (exact E).
      rewrite !put_put. reflexivity. }
  rewrite E. split; [reflexivity|apply write_same].
Qed.
End Target.

(** ** Only bytes are written *)

Section Bytes.
Variable tags : T.t.
Variable exponentDigit : number -> digit.
#[local] Abbreviation encodeValue := (_encodeValue tags exponentDigit).
#[local] Abbreviation encodeTop := (encode tags exponentDigit).

Lemma putsBytes_nothing {A} (m : Js A) :
  (forall this buf, (m this buf).2 = buf) -> PutsBytes m.
Proof.
  intros H this buf. exists []. rewrite H, put_nil. split; [reflexivity|constructor].
Qed.

Lemma putsBytes_write bs : Forall isByte bs -> PutsBytes (write bs).
Proof.
  intros Hbs this buf. unfold write. destruct (ByteBuffer.illegalOffset buf).
  - exists []. rewrite put_nil. split; [reflexivity|constructor].
  - exists bs. split; [reflexivity|exact Hbs].
Qed.

Lemma putsBytes_writeOrdered bs :
  (forall le, Forall isByte (bs le)) -> PutsBytes (writeOrdered bs).
Proof. intros Hbs this buf. apply putsBytes_write, Hbs. Qed.

Lemma putsBytes_bind {A B} (m : Js A) (f : A -> Js B) :
  PutsBytes m -> (forall a, PutsBytes (f a)) -> PutsBytes (m ≫= f).
Proof.
  intros Hm Hf this buf. rewrite bind_unfold.
  destruct (Hm this buf) as (bs1 & E1 & H1).
  destruct (m this buf) as [[[a|e] this1] buf1]; simpl in E1; subst buf1.
  - destruct (Hf a this1 (ByteBuffer.put bs1 buf)) as (bs2 & E2 & H2).
    exists (bs1 ++ bs2). rewrite E2, put_put. split; [reflexivity|].
    apply Forall_app. split; assumption.
  - exists bs1. split; [reflexivity|exact H1].
Qed.

Lemma putsBytes_tryCatch {A} (body : Js A) handler :
  PutsBytes body -> (forall e, PutsBytes (handler e)) -> PutsBytes (tryCatch body handler).
Proof.
  intros Hbody Hhandler this buf. unfold tryCatch.
  destruct (Hbody this buf) as (bs1 & E1 & H1).
  destruct (body this buf) as [[[a|e] this1] buf1]; simpl in E1; subst buf1.
  - exists bs1. split; [reflexivity|exact H1].
  - destruct (Hhandler e this1 (ByteBuffer.put bs1 buf)) as (bs2 & E2 & H2).
    exists (bs1 ++ bs2). rewrite E2, put_put. split; [reflexivity|].
    apply Forall_app. split; assumption.
Qed.

Lemma putsBytes_if {A} (b : bool) (m1 m2 : Js A) :
  PutsBytes m1 -> PutsBytes m2 -> PutsBytes (if b then m1 else m2).
Proof. destruct b; auto. Qed.

Lemma putsBytes_forEach {A} (f : A -> Js unit) xs :
  Forall (fun x => PutsBytes (f x)) xs -> PutsBytes (forEach f xs).
Proof.
  induction 1 as [|x xs Hx _ IH]; simpl.
  - apply putsBytes_nothing. reflexivity.
  - apply putsBytes_bind; auto.
Qed.

Lemma putsBytes_getThis {B} (f : Encoder -> Js B) :
  (forall this, PutsBytes (f this)) -> PutsBytes (getThis ≫= f).
Proof. intros Hf this buf. rewrite bind_unfold. apply Hf. Qed.

Lemma putsBytes_hasOwnProperty {B} key (f : option nat -> Js B) :
  (forall found, PutsBytes (f found)) -> PutsBytes (hasOwnProperty key ≫= f).
Proof.
  intros Hf this buf. rewrite hasOwnProperty_bind.
  destruct (dict this !! "hasOwnProperty"%string); [|apply Hf].
  exists []. rewrite put_nil. split; [reflexivity|constructor].
Qed.

(** The bytes of the sink's encodings. *)

Lemma isByte_mod z : isByte (z mod 256).
Proof. unfold isByte. Z.div_mod_to_equations. lia. Qed.

Lemma varintLoop_bytes n : forall value,
  0 <= value < 2 ^ (7 * (Z.of_nat n + 1)) ->
  Forall isByte (ByteBuffer.varintLoop n value).
Proof.
  induction n as [|n IH]; intros value Hv.
  - change (2 ^ (7 * (Z.of_nat 0 + 1))) with 128 in Hv. repeat constructor; unfold isByte; lia.
  - simpl. destruct (128 <=? value) eqn:E.
    + constructor.
      * destruct (continuation_byte (Z.land value 127)
                    ltac:(rewrite (land_0x7f value); Z.div_mod_to_equations; lia)) as (-> & _).
        rewrite (land_0x7f value). unfold isByte. Z.div_mod_to_equations. lia.
      * apply IH. rewrite Z.shiftr_div_pow2 by lia.
        replace (7 * (Z.of_nat (S n) + 1)) with (7 * (Z.of_nat n + 1) + 7) in Hv by lia.
        rewrite Z.pow_add_r in Hv by lia.
        split; [apply Z.div_pos; lia|apply Z.div_lt_upper_bound; lia].
    + apply Z.leb_gt in E. repeat constructor; unfold isByte; lia.
Qed.

Lemma varint32_bytes value : Forall isByte (ByteBuffer.varint32 value).
Proof.
  apply varintLoop_bytes. unfold toUint32. simpl. Z.div_mod_to_equations. lia.
Qed.

Lemma varint64_bytes value : Forall isByte (ByteBuffer.varint64 value).
Proof. apply varintLoop_bytes. simpl. Z.div_mod_to_equations. lia. Qed.

Lemma bytesLE_bytes n : forall z, Forall isByte (bytesLE n z).
Proof. induction n as [|n IH]; intros z; simpl; constructor; [apply isByte_mod|apply IH]. Qed.

Lemma ordered_bytes le bs : Forall isByte bs -> Forall isByte (ByteBuffer.ordered le bs).
Proof. intros H. destruct le; simpl; [exact H|]. apply Forall_rev, H. Qed.

Lemma utf8_bytes s : Forall isByte (ByteBuffer.utf8 s).
Proof.
  unfold ByteBuffer.utf8. apply Forall_fmap, Forall_forall. intros c _. simpl.
  pose proof (Ascii.nat_ascii_bounded c). unfold isByte. lia.
Qed.

Lemma vstring_bytes s : Forall isByte (ByteBuffer.vstring s).
Proof. apply Forall_app. split; [apply varint32_bytes|apply utf8_bytes]. Qed.

Lemma putsBytes_writeUint8 value : PutsBytes (writeUint8 value).
Proof. apply putsBytes_write. constructor; [apply isByte_mod|constructor]. Qed.

Lemma putsBytes_writeVarint32 value : PutsBytes (writeVarint32 value).
Proof. apply putsBytes_write, varint32_bytes. Qed.

Lemma putsBytes_writeVString s : PutsBytes (writeVString s).
Proof. apply putsBytes_write, vstring_bytes. Qed.

Lemma putsBytes_writeFloat32 v : PutsBytes (writeFloat32 v).
Proof. apply putsBytes_writeOrdered. intros le. apply ordered_bytes, bytesLE_bytes. Qed.

Lemma putsBytes_writeFloat64 v : PutsBytes (writeFloat64 v).
Proof. apply putsBytes_writeOrdered. intros le. apply ordered_bytes, bytesLE_bytes. Qed.

Lemma putsBytes_writeVarint64ZigZag l : PutsBytes (writeVarint64ZigZag l).
Proof. apply putsBytes_write, varint64_bytes. Qed.

Lemma putsBytes_addToDictionary key : PutsBytes (addToDictionary key).
Proof. apply putsBytes_nothing. reflexivity. Qed.

Create HintDb putsBytes.
Hint Resolve putsBytes_bind putsBytes_tryCatch putsBytes_if putsBytes_getThis
  putsBytes_writeUint8 putsBytes_writeVarint32 putsBytes_writeVString
  putsBytes_writeFloat32 putsBytes_writeFloat64 putsBytes_writeVarint64ZigZag
  putsBytes_addToDictionary : putsBytes.

Ltac putsBytes := repeat (intros; eauto 10 with putsBytes).

Lemma putsBytes_encodeString val : PutsBytes (encodeString tags val).
Proof.
  unfold encodeString. apply putsBytes_if; [putsBytes|].
  apply putsBytes_hasOwnProperty. intros [index|]; putsBytes.
Qed.

Lemma putsBytes_encodeNumber val : PutsBytes (encodeNumber tags exponentDigit val).
Proof. unfold encodeNumber, writeVarint32ZigZag. cbv zeta. putsBytes. Qed.

Lemma putsBytes_encodeKey excluded key : PutsBytes (encodeKey tags excluded key).
Proof.
  unfold encodeKey. apply putsBytes_hasOwnProperty. intros [index|]; [putsBytes|].
  apply putsBytes_getThis. intros this.
  destruct (progressive this && negb excluded); putsBytes.
Qed.

Lemma putsBytes_encodeObject recur hidden properties excluded :
  Forall (fun kv => PutsBytes (recur kv.2 false)) properties ->
  PutsBytes (encodeObject tags recur hidden properties excluded).
Proof.
  intros Hrecur. unfold encodeObject. cbv zeta.
  apply putsBytes_if; [putsBytes|].
  do 2 (apply putsBytes_bind; [putsBytes|intros _]).
  apply putsBytes_forEach. eapply Forall_impl; [exact Hrecur|].
  intros kv Hkv. simpl. apply putsBytes_if; [apply putsBytes_nothing; reflexivity|].
  pose proof putsBytes_encodeKey. putsBytes.
Qed.

Lemma binaryIsBytes_spec bs :
  forallb (fun b => (0 <=? b) && (b <? 256)) bs = true -> Forall isByte bs.
Proof.
  intros H. apply Forall_forall. intros b Hb.
  rewrite forallb_forall in H. specialize (H b (proj1 (list_elem_of_In _ _) Hb)).
  apply andb_true_iff in H as [H1 H2]. apply Z.leb_le in H1. apply Z.ltb_lt in H2.
  split; assumption.
Qed.

Lemma binaryIsBytes_wrapper bs :
  binaryIsBytes (VBinary bs) = true ->
  Forall (fun kv : string * value => binaryIsBytes kv.2 = true) (wrapperProperties bs).
Proof.
  intros H. unfold wrapperProperties. repeat constructor; try exact H.
  simpl. destruct bs; [reflexivity|exact H].
Qed.

(** X17: whatever the value (its binary data being bytes), the encoder, the
    stack and the buffer, and whether the call returns or throws:
    [_encodeValue] leaves the buffer as it was except that it has put bytes,
    each from 0 to 255, at the offset. *)
Theorem encodeValue_only_puts_bytes frames : forall val excluded this buf,
  binaryIsBytes val = true ->
  exists bs,
    (encodeValue frames val excluded this buf).2 = ByteBuffer.put bs buf
    /\ Forall (fun b => 0 <= b < 256) bs.
Proof.
  enough (G : forall val excluded, binaryIsBytes val = true ->
                PutsBytes (encodeValue frames val excluded))
    by (intros val excluded this buf H; apply (G val excluded H)).
  induction frames as [|frames IH]; intros val excluded Hval.
  - apply putsBytes_nothing. reflexivity.
  - pose proof putsBytes_encodeString. pose proof putsBytes_encodeNumber.
    destruct val; simpl; try (putsBytes; fail).
    + apply putsBytes_tryCatch.
      * do 2 (apply putsBytes_bind; [putsBytes|intros _]).
        apply putsBytes_write, binaryIsBytes_spec, Hval.
      * intros _. apply putsBytes_encodeObject.
        eapply Forall_impl; [apply binaryIsBytes_wrapper, Hval|].
        intros kv Hkv. apply IH, Hkv.
    + apply putsBytes_if; [putsBytes|].
      do 2 (apply putsBytes_bind; [putsBytes|intros _]).
      apply putsBytes_forEach. apply Forall_forall. intros x Hx. apply IH.
      simpl in Hval. rewrite forallb_forall in Hval. apply Hval, list_elem_of_In, Hx.
    + apply putsBytes_tryCatch; [apply putsBytes_nothing; reflexivity|intros _].
      apply putsBytes_encodeObject. apply Forall_forall. intros kv Hkv. apply IH.
      simpl in Hval. rewrite forallb_forall in Hval.
      apply (Hval kv), list_elem_of_In, Hkv.
    + apply putsBytes_nothing. reflexivity.
    + apply putsBytes_nothing. reflexivity.
Qed.
End Bytes.


(** ** The theorems at concrete inputs *)







Lemma small_integer_is_its_zigzag_byte_witness :
  let v := ofZ (-3) in
  isInteger v = true /\ magnitudeBelow1e21 v = true /\
  ByteBuffer.zigZagEncode32 v <= T.MAX T.sample /\ T.MAX T.sample <= 255 /\
  encode T.sample leadingOne 1 (VNumber v) None (newEncoder [] true) =
  (Normal tt, newEncoder [] true,
   {| ByteBuffer.behind := []; ByteBuffer.ahead := [ByteBuffer.zigZagEncode32 v];
      ByteBuffer.littleEndian := false; ByteBuffer.illegalOffset := false |}).
Proof.
  intros v.
  assert (H1 : isInteger v = true) by reflexivity.
  assert (H2 : magnitudeBelow1e21 v = true) by reflexivity.
  assert (H3 : ByteBuffer.zigZagEncode32 v <= T.MAX T.sample) by (vm_compute; discriminate).
  assert (H4 : T.MAX T.sample <= 255) by (vm_compute; discriminate).
  repeat (split; [assumption|]).
  exact (small_integer_is_its_zigzag_byte T.sample leadingOne 0 v (newEncoder [] true)
           H1 H2 H3 H4).
Defined.

(** C4 as stated fails for whole Numbers from [10^21] on: 2^70 has the
    32-bit zigzag value 0, within the threshold, but [parseInt] reads only
    the 1 of "1.1805916207174113e+21", the Number counts as not whole, and it
    is written as a Float, five bytes. *)
Lemma integer_2p70_counterexample :
  let v := ofZ (2 ^ 70) in
  isInteger v = true
  /\ ByteBuffer.zigZagEncode32 v = 0
  /\ ByteBuffer.zigZagEncode32 v <= T.MAX T.sample
  /\ encode T.sample leadingOne 1 (VNumber v) None (newEncoder [] true) =
     (Normal tt, newEncoder [] true,
      {| ByteBuffer.behind := []; ByteBuffer.ahead := [0xFA; 0; 0; 0x80; 0x62];
         ByteBuffer.littleEndian := false; ByteBuffer.illegalOffset := false |})
  /\ (encode T.sample leadingOne 1 (VNumber v) None (newEncoder [] true)).2
     <> {| ByteBuffer.behind := []; ByteBuffer.ahead := [ByteBuffer.zigZagEncode32 v];
           ByteBuffer.littleEndian := false; ByteBuffer.illegalOffset := false |}.
Proof. repeat split; vm_compute; discriminate. Qed.

Lemma fraction_is_float_iff_exact_witness :
  let v := S754_finite false 0x1999999999999A (-56) in
  isInteger v = false /\
  encode T.sample leadingOne 1 (VNumber v) None (newEncoder [] true) =
  (Normal tt, newEncoder [] true,
   {| ByteBuffer.behind := [];
      ByteBuffer.ahead :=
        if strictEquals v (fround v)
        then (T.FLOAT T.sample mod 256) :: bytesLE 4 (bits32 v)
        else (T.DOUBLE T.sample mod 256) :: bytesLE 8 (bits64 v);
      ByteBuffer.littleEndian := false; ByteBuffer.illegalOffset := false |}).
Proof.
  intros v.
  assert (H : isInteger v = false) by reflexivity.
  split; [exact H|].
  exact (fraction_is_float_iff_exact T.sample leadingOne 0 v (newEncoder [] true) H).
Defined.

Lemma integer_2p31_is_written_as_its_negative_witness :
  T.MAX T.sample < 4294967295 /\
  let v := ofZ 2147483648 in
  isInteger v = true /\ truncZ v = 2147483648
  /\ ByteBuffer.zigZagEncode32 v = 4294967295
  /\ encode T.sample leadingOne 1 (VNumber v) None (newEncoder [] true) =
     (Normal tt, newEncoder [] true,
      {| ByteBuffer.behind := [];
         ByteBuffer.ahead := [T.INTEGER T.sample mod 256; 255; 255; 255; 255; 15];
         ByteBuffer.littleEndian := false; ByteBuffer.illegalOffset := false |})
  /\ ByteBuffer.readVarint32ZigZag [255; 255; 255; 255; 15] = Some (-2147483648).
Proof.
  assert (H : T.MAX T.sample < 4294967295) by reflexivity.
  split; [exact H|].
  exact (integer_2p31_is_written_as_its_negative T.sample leadingOne 0 (newEncoder [] true) H).
Defined.

Lemma static_encoder_is_never_changed_witness :
  let this := newEncoder ["a"%string] false in
  let calls := [(3%nat, VObject [("b"%string, VNumber (ofZ 1))], None)] in
  progressive this = false /\
  (session T.sample leadingOne calls this = this
   /\ forall frames val excluded buf,
        (_encodeValue T.sample leadingOne frames val excluded this buf).1.2 = this).
Proof.
  intros this calls.
  assert (H : progressive this = false) by reflexivity.
  split; [exact H|].
  exact (static_encoder_is_never_changed T.sample leadingOne calls this H).
Defined.

Lemma static_encoder_ignores_exclusion_witness :
  let this := newEncoder ["a"%string] false in
  let val := VObject [("k"%string, VNull); ("a"%string, VBool true)] in
  progressive this = false /\
  _encodeValue T.sample leadingOne 2 val true this ByteBuffer.create
  = _encodeValue T.sample leadingOne 2 val false this ByteBuffer.create.
Proof.
  intros this val.
  assert (H : progressive this = false) by reflexivity.
  split; [exact H|].
  exact (static_encoder_ignores_exclusion T.sample leadingOne 2 val true false this
           ByteBuffer.create H).
Defined.

Lemma only_object_keys_enter_dictionary_witness :
  let this := newEncoder ["a"%string] true in
  let val :=
    VArray [VString "b"; VObject [("k"%string, VUndefined)]; VBinary [1; 2]; VNumber (ofZ 7)] in
  hasKeys val = false /\
  (_encodeValue T.sample leadingOne 3 val false this ByteBuffer.create).1.2 = this.
Proof.
  intros this val.
  assert (H : hasKeys val = false) by reflexivity.
  split; [exact H|].
  exact (only_object_keys_enter_dictionary T.sample leadingOne 3 val false this
           ByteBuffer.create H).
Defined.

Lemma new_key_is_added_then_looked_up_witness :
  let this := newEncoder ["a"%string] true in
  let key := "b"%string in
  let buf := ByteBuffer.create in
  progressive this = true /\ usable this /\ dict this !! key = None /\
  ByteBuffer.illegalOffset buf = false /\
  (encodeKey T.sample false key this buf =
     (Normal tt, withKey key this,
      ByteBuffer.put ((T.STRING_ADD T.sample mod 256) :: ByteBuffer.vstring key) buf)
   /\ (key <> "__proto__"%string ->
       forall calls excluded buf',
         let later := session T.sample leadingOne calls (withKey key this) in
         usable later ->
         encodeKey T.sample excluded key later buf' =
         write ((T.STRING_GET T.sample mod 256) :: ByteBuffer.varint32 (Z.of_nat (next this)))
           later buf')).
Proof.
  intros this key buf.
  assert (H1 : progressive this = true) by reflexivity.
  assert (H2 : usable this) by reflexivity.
  assert (H3 : dict this !! key = None) by reflexivity.
  assert (H4 : ByteBuffer.illegalOffset buf = false) by reflexivity.
  repeat (split; [assumption|]).
  exact (new_key_is_added_then_looked_up T.sample leadingOne key this buf H1 H2 H3 H4).
Defined.



Lemma unhandled_elements_write_nothing_witness :
  let elements := [VSymbol; VBigInt 0] in
  let this := newEncoder [] true in
  elements <> [] /\
  Forall (fun element => element = VSymbol \/ exists n, element = VBigInt n) elements /\
  _encodeValue T.sample leadingOne 2 (VArray elements) false this ByteBuffer.create
  = write ((T.ARRAY T.sample mod 256) :: ByteBuffer.varint32 (Z.of_nat (length elements)))
      this ByteBuffer.create.
Proof.
  intros elements this.
  assert (H1 : elements <> []) by (vm_compute; discriminate).
  assert (H2 : Forall (fun element => element = VSymbol \/ exists n, element = VBigInt n)
                 elements)
    by (constructor; [left; reflexivity|constructor; [right; exists 0; reflexivity|constructor]]).
  repeat (split; [assumption|]).
  exact (unhandled_elements_write_nothing T.sample leadingOne 0 elements false this
           ByteBuffer.create H1 H2).
Defined.

Lemma one_byte_integers_witness :
  let v := ofZ (-120) in
  let this := newEncoder [] true in
  isInteger v = true /\ - 2 ^ 31 <= truncZ v < 2 ^ 31 /\ 0 <= T.MAX T.sample <= 255 /\
  let byte := if truncZ v <? 0 then - 2 * truncZ v - 1 else 2 * truncZ v in
  (ByteBuffer.zigZagEncode32 v <= T.MAX T.sample
     <-> - ((T.MAX T.sample + 1) / 2) <= truncZ v <= T.MAX T.sample / 2)
  /\ (- ((T.MAX T.sample + 1) / 2) <= truncZ v <= T.MAX T.sample / 2 ->
      encode T.sample leadingOne 1 (VNumber v) None this =
        (Normal tt, this,
         {| ByteBuffer.behind := []; ByteBuffer.ahead := [byte];
            ByteBuffer.littleEndian := false; ByteBuffer.illegalOffset := false |})
      /\ ByteBuffer.zigZagDecode32 byte = truncZ v).
Proof.
  intros v this.
  assert (H1 : isInteger v = true) by reflexivity.
  assert (H2 : - 2 ^ 31 <= truncZ v < 2 ^ 31) by (vm_compute; split; first [reflexivity|discriminate]).
  assert (H3 : 0 <= T.MAX T.sample <= 255) by (vm_compute; split; first [reflexivity|discriminate]).
  repeat (split; [assumption|]).
  exact (one_byte_integers T.sample leadingOne 0 v this H1 H2 H3).
Defined.

Lemma int32_is_Integer_and_reads_back_witness :
  let v := ofZ (-1000) in
  let this := newEncoder [] true in
  isInteger v = true /\ - 2 ^ 31 <= truncZ v < 2 ^ 31 /\
  T.MAX T.sample < ByteBuffer.zigZagEncode32 v /\
  (encode T.sample leadingOne 1 (VNumber v) None this =
     (Normal tt, this,
      {| ByteBuffer.behind := [];
         ByteBuffer.ahead :=
           (T.INTEGER T.sample mod 256) :: ByteBuffer.varint32 (ByteBuffer.zigZagEncode32 v);
         ByteBuffer.littleEndian := false; ByteBuffer.illegalOffset := false |})
   /\ forall rest,
        ByteBuffer.readVarint32ZigZag
          (ByteBuffer.varint32 (ByteBuffer.zigZagEncode32 v) ++ rest) = Some (truncZ v)).
Proof.
  intros v this.
  assert (H1 : isInteger v = true) by reflexivity.
  assert (H2 : - 2 ^ 31 <= truncZ v < 2 ^ 31) by (vm_compute; split; first [reflexivity|discriminate]).
  assert (H3 : T.MAX T.sample < ByteBuffer.zigZagEncode32 v) by reflexivity.
  repeat (split; [assumption|]).
  exact (int32_is_Integer_and_reads_back T.sample leadingOne 0 v this H1 H2 H3).
Defined.

Lemma integers_are_written_by_their_low_32_bits_witness :
  let v := ofZ 5 in
  let w := ofZ (2 ^ 32 + 5) in
  let this := newEncoder [] true in
  isInteger v = true /\ magnitudeBelow1e21 v = true /\
  isInteger w = true /\ magnitudeBelow1e21 w = true /\
  truncZ v mod 2 ^ 32 = truncZ w mod 2 ^ 32 /\
  (_encodeValue T.sample leadingOne 1 (VNumber v) false this ByteBuffer.create
   = _encodeValue T.sample leadingOne 1 (VNumber w) false this ByteBuffer.create
   /\ forall rest,
        ByteBuffer.readVarint32ZigZag
          (ByteBuffer.varint32 (ByteBuffer.zigZagEncode32 v) ++ rest)
        = Some (wrap32 (truncZ v))).
Proof.
  intros v w this.
  assert (H1 : isInteger v = true) by reflexivity.
  assert (H2 : magnitudeBelow1e21 v = true) by reflexivity.
  assert (H3 : isInteger w = true) by reflexivity.
  assert (H4 : magnitudeBelow1e21 w = true) by reflexivity.
  assert (H5 : truncZ v mod 2 ^ 32 = truncZ w mod 2 ^ 32) by reflexivity.
  repeat (split; [assumption|]).
  exact (integers_are_written_by_their_low_32_bits T.sample leadingOne 0 v w false this
           ByteBuffer.create H1 H2 H3 H4 H5).
Defined.

Lemma integer_from_1e21_is_written_as_float_witness :
  let v := ofZ (10 ^ 21) in
  let this := newEncoder [] true in
  isInteger v = true /\ magnitudeBelow1e21 v = false /\
  encode T.sample leadingOne 1 (VNumber v) None this =
  (Normal tt, this,
   {| ByteBuffer.behind := [];
      ByteBuffer.ahead :=
        if strictEquals v (fround v)
        then (T.FLOAT T.sample mod 256) :: bytesLE 4 (bits32 v)
        else (T.DOUBLE T.sample mod 256) :: bytesLE 8 (bits64 v);
      ByteBuffer.littleEndian := false; ByteBuffer.illegalOffset := false |}).
Proof.
  intros v this.
  assert (H1 : isInteger v = true) by reflexivity.
  assert (H2 : magnitudeBelow1e21 v = false) by reflexivity.
  repeat (split; [assumption|]).
  exact (integer_from_1e21_is_written_as_float T.sample leadingOne 0 v this H1 H2).
Defined.

Lemma encodeValue_only_puts_bytes_witness :
  let val := VArray [VBinary [0; 255]; VObject [("k"%string, VBinary [7])]] in
  let this := newEncoder [] true in
  binaryIsBytes val = true /\
  exists bs,
    (_encodeValue T.sample leadingOne 3 val false this ByteBuffer.create).2
      = ByteBuffer.put bs ByteBuffer.create
    /\ Forall (fun b => 0 <= b < 256) bs.
Proof.
  intros val this.
  assert (H : binaryIsBytes val = true) by reflexivity.
  split; [exact H|].
  exact (encodeValue_only_puts_bytes T.sample leadingOne 3 val false this
           ByteBuffer.create H).
Defined.

Lemma rejecting_buffer_throws_witness :
  let buf :=
    {| ByteBuffer.behind := [1]; ByteBuffer.ahead := [];
       ByteBuffer.littleEndian := false; ByteBuffer.illegalOffset := true |} in
  let val := VBinary [1; 2] in
  let this := newEncoder [] true in
  ByteBuffer.illegalOffset buf = true /\ val <> VSymbol /\
  (forall n, val <> VBigInt n) /\
  ((exists e,
      _encodeValue T.sample leadingOne 2 val false this buf = (Throw e, this, buf))
   /\ (usable this ->
       _encodeValue T.sample leadingOne 2 val false this buf
       = (Throw RangeError_IllegalOffset, this, buf))).
Proof.
  intros buf val this.
  assert (H1 : ByteBuffer.illegalOffset buf = true) by reflexivity.
  assert (H2 : val <> VSymbol) by (vm_compute; discriminate).
  assert (H3 : forall n, val <> VBigInt n) by (intros n; vm_compute; discriminate).
  repeat (split; [assumption|]).
  exact (rejecting_buffer_throws T.sample leadingOne 1 val false this buf H1 H2 H3).
Defined.

Lemma encode_returns_witness :
  let json := VArray [VObject [("a"%string, VNull)]; VNumber (ofZ 1)] in
  let this := newEncoder [] true in
  (depth json < 3)%nat /\ usable this /\ noHasOwnPropertyKey json = true /\
  exists this' bs,
    encode T.sample leadingOne 3 json None this =
    (Normal tt, this',
     {| ByteBuffer.behind := []; ByteBuffer.ahead := bs;
        ByteBuffer.littleEndian := false; ByteBuffer.illegalOffset := false |}).
Proof.
  intros json this.
  assert (H1 : (depth json < 3)%nat) by (vm_compute; lia).
  assert (H2 : usable this) by reflexivity.
  assert (H3 : noHasOwnPropertyKey json = true) by reflexivity.
  repeat (split; [assumption|]).
  exact (encode_returns T.sample leadingOne 3 json this H1 H2 H3).
Defined.

Lemma hasOwnProperty_key_disables_lookups_witness :
  let this := newEncoder ["hasOwnProperty"%string] true in
  let calls := [(3%nat, VObject [("a"%string, VNull)], None)] in
  dict this !! "hasOwnProperty"%string = Some 0%nat /\
  let later := session T.sample leadingOne calls this in
  dict later !! "hasOwnProperty"%string = Some 0%nat
  /\ (forall excluded key buf,
        encodeKey T.sample excluded key later buf = (Throw TypeError_NotAFunction, later, buf))
  /\ (forall frames s excluded buf,
        s <> ""%string ->
        _encodeValue T.sample leadingOne (S frames) (VString s) excluded later buf
        = (Throw TypeError_NotAFunction, later, buf)).
Proof.
  intros this calls.
  assert (H : dict this !! "hasOwnProperty"%string = Some 0%nat) by reflexivity.
  split; [exact H|].
  exact (hasOwnProperty_key_disables_lookups T.sample leadingOne calls this 0%nat H).
Defined.

(** ** The encoder run on examples *)

Example bits32_1_5 : bits32 (double false 3 (-1)) = 0x3FC00000.
Proof. reflexivity. Qed.

Example bits64_1_5 : bits64 (double false 3 (-1)) = 0x3FF8000000000000.
Proof. reflexivity. Qed.

Example bits64_minus_2 : bits64 (ofZ (-2)) = 0xC000000000000000.
Proof. reflexivity. Qed.

(** 0.1 is the double 0x3FB999999999999A and is not a single. *)
Example fround_0_1 :
  let tenth := S754_finite false 0x1999999999999A (-56) in
  bits64 tenth = 0x3FB999999999999A /\ strictEquals tenth (fround tenth) = false.
Proof. split; reflexivity. Qed.

(** 4722366482869645 * 2^-72 is within half a unit in the last place of
    [10^-6], and is the first Number printed in positional notation. *)
Example nearest_to_1em6 :
  2 * Z.abs (4722366482869645 * 10 ^ 6 - 2 ^ 72) < 10 ^ 6
  /\ double false 4722366482869645 (-72) = S754_finite false 4722366482869645 (-72)
  /\ positional 4722366482869645 (-72) = true
  /\ positional 4722366482869644 (-72) = false
  /\ parseInt leadingOne (S754_finite false 4722366482869645 (-72)) = S754_zero false.
Proof. repeat split; reflexivity. Qed.

(** [parseInt(-0.5)] is -0, [parseInt(2^70)] is the leading 1. *)
Example parseInt_examples :
  parseInt leadingOne (S754_finite true 1 (-1)) = S754_zero true
  /\ parseInt leadingOne (ofZ 12) = S754_finite false 12 0
  /\ parseInt leadingOne (S754_finite false 25 (-1)) = S754_finite false 12 0
  /\ parseInt leadingOne (ofZ (2 ^ 70)) = S754_finite false 1 0.
Proof. repeat split; reflexivity. Qed.

Example encode_empty_containers :
  let run json := (encode T.sample leadingOne 1 json None (newEncoder [] true)).2 in
  ByteBuffer.ahead (run (VArray [])) = [0xF4]
  /\ ByteBuffer.ahead (run (VObject [])) = [0xF3]
  /\ ByteBuffer.ahead (run (VString "")) = [0xF5]
  /\ ByteBuffer.ahead (run (VObject [("a"%string, VUndefined)])) = [0xF3].
Proof. repeat split; reflexivity. Qed.

Example encode_array :
  encode T.sample leadingOne 2
    (VArray [VUndefined; VNull; VString "ab"; VNumber (ofZ (-1)); VLong (-3);
             VBinary [1; 2; 3]; VNumber (S754_finite false 3 (-1))])
    None (newEncoder ["ab"%string] true)
  = (Normal tt, newEncoder ["ab"%string] true,
     {| ByteBuffer.behind := [];
        ByteBuffer.ahead :=
          [0xF7; 7; 0xF0; 0xF0; 0xFE; 0; 1; 0xF9; 5; 0xFF; 3; 1; 2; 3;
           0xFA; 0; 0; 0xC0; 0x3F];
        ByteBuffer.littleEndian := false; ByteBuffer.illegalOffset := false |}).
Proof. reflexivity. Qed.

(** A progressive encoder writes a new key in full with StringAdd the
    first time and as StringGet with its index afterwards. *)
Example encode_same_key_twice :
  let first := encode T.sample leadingOne 2 (VObject [("a"%string, VNumber (ofZ 1))]) None
                 (newEncoder [] true) in
  let second := encode T.sample leadingOne 2 (VObject [("a"%string, VNumber (ofZ 2))]) None
                  first.1.2 in
  ByteBuffer.ahead first.2 = [0xF6; 1; 0xFD; 1; 97; 2]
  /\ ByteBuffer.ahead second.2 = [0xF6; 1; 0xFE; 0; 4]
  /\ dict second.1.2 !! "a"%string = Some 0%nat.
Proof. repeat split; reflexivity. Qed.

(** A sentinel [0n] is defined and not truthy: it is counted, its key is
    added like the others, and for its value, a bigint, nothing is written. *)
Example encode_bigint_sentinel :
  let result :=
    encode T.sample leadingOne 2
      (VObject [("_PSON_EXCL_"%string, VBigInt 0); ("k"%string, VNull)]) None
      (newEncoder [] true) in
  ByteBuffer.ahead result.2 =
    [0xF6; 2; 0xFD; 11; 95; 80; 83; 79; 78; 95; 69; 88; 67; 76; 95; 0xFD; 1; 107; 0xF0]
  /\ dict result.1.2 !! "_PSON_EXCL_"%string = Some 0%nat
  /\ dict result.1.2 !! "k"%string = Some 1%nat.
Proof. repeat split; reflexivity. Qed.

(** The string "__proto__" is never stored: seeded with it the dictionary
    is empty and [next] is 1, and as a key it is written with StringAdd on
    every call and takes a new index each time. *)
Example encode_proto_key :
  let this := newEncoder ["__proto__"%string] true in
  let first := encode T.sample leadingOne 2 (VObject [("__proto__"%string, VNull)]) None this in
  let second :=
    encode T.sample leadingOne 2 (VObject [("__proto__"%string, VNull)]) None first.1.2 in
  dict this !! "__proto__"%string = None /\ next this = 1%nat
  /\ ByteBuffer.ahead first.2
     = [0xF6; 1; 0xFD; 9; 95; 95; 112; 114; 111; 116; 111; 95; 95; 0xF0]
  /\ ByteBuffer.ahead second.2 = ByteBuffer.ahead first.2
  /\ dict second.1.2 !! "__proto__"%string = None /\ next second.1.2 = 3%nat.
Proof. repeat split; reflexivity. Qed.

(** A key "hasOwnProperty" is added like any other key; the next lookup,
    here for the key "a" after the Object tag and the count are written,
    throws a TypeError. *)
Example encode_hasOwnProperty_key :
  let first :=
    encode T.sample leadingOne 2 (VObject [("hasOwnProperty"%string, VNull)]) None
      (newEncoder [] true) in
  let second := encode T.sample leadingOne 2 (VObject [("a"%string, VNull)]) None first.1.2 in
  first.1.1 = Normal tt
  /\ dict first.1.2 !! "hasOwnProperty"%string = Some 0%nat
  /\ second.1 = (Throw TypeError_NotAFunction, first.1.2)
  /\ ByteBuffer.behind second.2 = [0xF6; 1].
Proof. repeat split; reflexivity. Qed.

(** An excluded object keeps its keys out of the dictionary; the object
    below it does not inherit the exclusion. *)
Example encode_excluded_object :
  let result :=
    encode T.sample leadingOne 3
      (VObject [("_PSON_EXCL_"%string, VBool true);
                ("b"%string, VObject [("c"%string, VNull)])])
      None (newEncoder [] true) in
  ByteBuffer.ahead result.2 =
    [0xF6; 2; 0xFC; 11; 95; 80; 83; 79; 78; 95; 69; 88; 67; 76; 95; 0xF1;
     0xFC; 1; 98; 0xF6; 1; 0xFD; 1; 99; 0xF0]
  /\ dict result.1.2 !! "b"%string = None
  /\ dict result.1.2 !! "_PSON_EXCL_"%string = None
  /\ dict result.1.2 !! "c"%string = Some 0%nat.
Proof. repeat split; reflexivity. Qed.

(** A big-endian buffer that accepts writes: the float is written little
    endian and the buffer is big endian again afterwards. *)
Example encode_into_big_endian_buffer :
  encode T.sample leadingOne 1 (VNumber (S754_finite false 3 (-1)))
    (Some {| ByteBuffer.behind := [7]; ByteBuffer.ahead := [];
             ByteBuffer.littleEndian := false; ByteBuffer.illegalOffset := false |})
    (newEncoder [] true)
  = (Normal tt, newEncoder [] true,
     {| ByteBuffer.behind := [7; 0xFA; 0; 0; 0xC0; 0x3F]; ByteBuffer.ahead := [];
        ByteBuffer.littleEndian := false; ByteBuffer.illegalOffset := false |}).
Proof. reflexivity. Qed.

(** A buffer whose offset is out of range: the first write throws, also
    for a binary value, whose handler then tries the wrapper as an object;
    the byte order is the one from before the call. *)
Example encode_into_rejecting_buffer :
  let buf := {| ByteBuffer.behind := [7]; ByteBuffer.ahead := [];
                ByteBuffer.littleEndian := false; ByteBuffer.illegalOffset := true |} in
  encode T.sample leadingOne 3 (VObject [("a"%string, VNull)]) (Some buf) (newEncoder [] true)
    = (Throw RangeError_IllegalOffset, newEncoder [] true, buf)
  /\ encode T.sample leadingOne 3 (VBinary [1; 2]) (Some buf) (newEncoder [] true)
    = (Throw RangeError_IllegalOffset, newEncoder [] true, buf).
Proof. split; reflexivity. Qed.

(** Too few frames for the nesting: the RangeError of the engine, after the
    bytes written so far; the byte order is restored all the same. *)
Example encode_out_of_stack :
  encode T.sample leadingOne 1 (VArray [VNull])
    (Some {| ByteBuffer.behind := []; ByteBuffer.ahead := [];
             ByteBuffer.littleEndian := false; ByteBuffer.illegalOffset := false |})
    (newEncoder [] true)
  = (Throw RangeError_CallStack, newEncoder [] true,
     {| ByteBuffer.behind := [0xF7; 1]; ByteBuffer.ahead := [];
        ByteBuffer.littleEndian := false; ByteBuffer.illegalOffset := false |}).
Proof. reflexivity. Qed.
